(** * weird-sentences: the scoring pipeline of [server.js]

    A shallow embedding of the [POST /analyze] handler of [src/server.js]
    and of [escapeHtml], with the properties the specification states
    about them.

    Conventions of the embedding:
    - a JS string is the list of its UTF-16 code units ([N]);
    - a JS number is a real number ([R]): IEEE-754 rounding, NaN and the
      infinities are not represented; an integer-valued number that the
      code uses as an integer (the score) is a [Z]; where a statement
      would depend on the operations being exact, the scoring lines are
      taken over an arithmetic left open ([Machine]), which rounding
      arithmetics instantiate as well;
    - the handler runs in a small state-and-exception monad: the state
      holds the handler's mutable locals ([weirdness], [perplexityInfo],
      [errorMessage]) and the trace of outward effects ([fetch],
      [console.error]);
    - the outside world (the environment variable [HF_TOKEN] and the
      answer of the provider to [fetch]) is an explicit argument. *)

From Stdlib Require Import String Ascii Bool NArith ZArith List.
From Stdlib Require DecimalString.
From Stdlib Require Import Reals Lra Lia.
Import ListNotations.

Set Implicit Arguments.

(** ** The JavaScript built-ins the handler uses *)

Module JS.

Definition code_unit := N.
Definition jsstring := list code_unit.

(** A string literal of the source whose characters are all ASCII. *)
Definition lit (s : string) : jsstring :=
  map N_of_ascii (list_ascii_of_string s).

(** [ToString] of a non-negative integer-valued number. *)
Definition decimal (n : N) : jsstring :=
  lit (DecimalString.NilEmpty.string_of_uint (N.to_uint n)).

(** The class [\s] of a regular expression without the [u] flag, which
    is also what [String.prototype.trim] strips: WhiteSpace and
    LineTerminator code points. *)
Definition is_space (c : code_unit) : bool :=
  ((9 <=? c) && (c <=? 13)            (* TAB LF VT FF CR *)
   || (c =? 32) || (c =? 160)         (* SP NBSP *)
   || (c =? 5760)                     (* U+1680 *)
   || ((8192 <=? c) && (c <=? 8202))  (* U+2000 .. U+200A *)
   || (c =? 8232) || (c =? 8233)      (* LS PS *)
   || (c =? 8239) || (c =? 8287)      (* U+202F U+205F *)
   || (c =? 12288) || (c =? 65279)    (* U+3000 U+FEFF *))%N.

Fixpoint trimStart (s : jsstring) : jsstring :=
  match s with
  | [] => []
  | c :: s' => if is_space c then trimStart s' else s
  end.

Definition trimEnd (s : jsstring) : jsstring := rev (trimStart (rev s)).

(** [String.prototype.trim]. *)
Definition trim (s : jsstring) : jsstring := trimEnd (trimStart s).

(** [s.split(/\s+/)]: the scan of [String.prototype.split] for a
    separator that matches exactly the maximal runs of white space.
    [cur] is the piece being read (reversed), [in_sep] tells that the
    previous code unit belonged to a separator match. *)
Fixpoint split_scan (in_sep : bool) (cur : jsstring) (s : jsstring)
  : list jsstring :=
  match s with
  | [] => [rev cur]
  | c :: s' =>
      if is_space c then
        if in_sep then split_scan true cur s'
        else rev cur :: split_scan true [] s'
      else split_scan false (c :: cur) s'
  end.

Definition split_spaces (s : jsstring) : list jsstring :=
  split_scan false [] s.

(** [Boolean] applied to a string: the empty string is the falsy one. *)
Definition Boolean_str (s : jsstring) : bool :=
  match s with [] => false | _ :: _ => true end.

(** [s.replace(/c/g, rep)] for a one-character pattern [c] and a
    replacement [rep] without [$]. *)
Definition replace_all (c : code_unit) (rep : jsstring) (s : jsstring)
  : jsstring :=
  flat_map (fun x => if (x =? c)%N then rep else [x]) s.

Local Open Scope R_scope.

Definition Math_exp (x : R) : R := exp x.

(** [Math.log x] for [x > 0], the only arguments the handler gives it
    (the argument is a perplexity plus one). *)
Definition Math_log (x : R) : R := ln x.

(** [x ** y] for a base [x >= 0] and an exponent [y > 0]
    ([0 ** y] is [0]; a negative base with a fractional exponent is NaN
    in JS and is not represented). *)
Definition Math_pow (x y : R) : R :=
  if Rle_dec x 0 then 0 else Rpower x y.

(** [Math.round]: the nearest integer, a tie going towards +infinity. *)
Definition Math_round (x : R) : Z := Zfloor (x + / 2).

Definition Math_min (a b : Z) : Z := Z.min a b.
Definition Math_max (a b : Z) : Z := Z.max a b.

(** [v || 0] for a numeric property that may be missing, [undefined]
    or [null] ([0 || 0] is [0] as well). *)
Definition or_zero (v : option R) : R :=
  match v with Some x => x | None => 0 end.

(** [a.reduce(f, init)]. *)
Definition reduce {A B : Type} (f : B -> A -> B) (init : B) (a : list A) : B :=
  fold_left f a init.

End JS.

(** ** The handler's monad: mutable locals, effect trace, exceptions *)

Module Run.
Import JS.

(** What the handler does to the outside, in order. *)
Inductive event : Type :=
| Fetch (url authorization inputs : jsstring)
| ConsoleError (message : jsstring).

(** A thrown value: an [Error] object, of which only [message] is read. *)
Record js_error : Type := Error { message : jsstring }.

Inductive outcome (A : Type) : Type :=
| Normal (a : A)
| Thrown (e : js_error).
Arguments Normal {A} a.
Arguments Thrown {A} e.

(** The [let] variables of the handler that the [try] block assigns. *)
Record Locals : Type := {
  var_weirdness : Z;
  var_perplexityInfo : jsstring;
  var_errorMessage : option jsstring
}.

Record State : Type := { locals : Locals; trace : list event }.

Definition M (A : Type) : Type := State -> outcome A * State.

Definition ret {A} (a : A) : M A := fun s => (Normal a, s).

Definition bind {A B} (m : M A) (k : A -> M B) : M B :=
  fun s =>
    match m s with
    | (Normal a, s') => k a s'
    | (Thrown e, s') => (Thrown e, s')
    end.

Definition throw {A} (e : js_error) : M A := fun s => (Thrown e, s).

(** [await p] for a promise already settled as [p]. *)
Definition await {A} (p : outcome A) : M A := fun s => (p, s).

Definition emit (e : event) : M unit :=
  fun s => (Normal tt, {| locals := locals s; trace := trace s ++ [e] |}).

Definition assign (f : Locals -> Locals) : M unit :=
  fun s => (Normal tt, {| locals := f (locals s); trace := trace s |}).

(** [try { body } catch (err) { handler err }]. *)
Definition try_catch {A} (body : M A) (handler : js_error -> M A) : M A :=
  fun s =>
    match body s with
    | (Normal a, s') => (Normal a, s')
    | (Thrown e, s') => handler e s'
    end.

Definition set_weirdness (v : Z) : M unit :=
  assign (fun l => {| var_weirdness := v;
                      var_perplexityInfo := var_perplexityInfo l;
                      var_errorMessage := var_errorMessage l |}).

Definition set_perplexityInfo (v : jsstring) : M unit :=
  assign (fun l => {| var_weirdness := var_weirdness l;
                      var_perplexityInfo := v;
                      var_errorMessage := var_errorMessage l |}).

Definition set_errorMessage (v : option jsstring) : M unit :=
  assign (fun l => {| var_weirdness := var_weirdness l;
                      var_perplexityInfo := var_perplexityInfo l;
                      var_errorMessage := v |}).

End Run.

Declare Scope run_scope.
Delimit Scope run_scope with run.
Notation "x <- m ;; k" := (Run.bind m (fun x => k))
  (at level 61, m at next level, right associativity) : run_scope.
Notation "m ;; k" := (Run.bind m (fun _ => k))
  (at level 61, right associativity) : run_scope.

(** ** [server.js] *)

Module Server.
Import JS Run.
Local Open Scope R_scope.

(** *** The provider's answer, as the handler reads it *)

(** One entry of [details.prefill]; [logprob] may be missing,
    [undefined] or [null]. *)
Record Token : Type := { text : jsstring; logprob : option R }.

Record Details : Type := { prefill : option (list Token) }.

Record Data : Type := { details : option Details }.

(** The [Response] of [fetch]; reading the body is a promise that may
    reject. [json_body] is [Normal None] when the body parses to [null]. *)
Record Response : Type := {
  ok : bool;
  status : N;
  text_body : outcome jsstring;
  json_body : outcome (option Data)
}.

(** The world outside the process: [process.env.HF_TOKEN] and what
    [fetch(url, {headers: {Authorization}, body: {inputs}})] settles to. *)
Record World : Type := {
  HF_TOKEN : option jsstring;
  fetch : jsstring -> jsstring -> jsstring -> outcome Response
}.

(** [!v] for a string that may be [undefined]. *)
Definition not_str (v : option jsstring) : bool :=
  match v with
  | None => true
  | Some s => negb (Boolean_str s)
  end.

(** [`${v}`] for a string that may be [undefined]. *)
Definition template_str (v : option jsstring) : jsstring :=
  match v with
  | None => lit "undefined"
  | Some s => s
  end.

(** [data?.details?.prefill?.length]; [None] is [undefined]. *)
Definition prefill_length (data : option Data) : option nat :=
  match data with
  | None => None
  | Some d =>
      match details d with
      | None => None
      | Some dt =>
          match prefill dt with
          | None => None
          | Some p => Some (length p)
          end
      end
  end.

(** [!n] for a length that may be [undefined]. *)
Definition not_length (n : option nat) : bool :=
  match n with
  | None => true
  | Some O => true
  | Some (S _) => false
  end.

(** [data.details.prefill], a [TypeError] when a link is absent. *)
Definition data_details_prefill (data : option Data) : outcome (list Token) :=
  match data with
  | None => Thrown (Error (lit "Cannot read properties of null"))
  | Some d =>
      match details d with
      | None => Thrown (Error (lit "Cannot read properties of undefined"))
      | Some dt =>
          match prefill dt with
          | None => Thrown (Error (lit "Cannot read properties of undefined"))
          | Some p => Normal p
          end
      end
  end.

(** *** The scoring pipeline (lines 80-90) *)

Definition totalLogProb (prefill : list Token) : R :=
  reduce (fun a b => a + b) 0
         (map (fun token => or_zero (logprob token)) prefill).

Definition tokenCount (prefill : list Token) : R := INR (length prefill).

Definition avgLogProb (prefill : list Token) : R :=
  totalLogProb prefill / tokenCount prefill.

Definition ppl (prefill : list Token) : R :=
  Math_exp (- avgLogProb prefill).

Definition weirdness (ppl : R) : Z :=
  Math_min 100 (Math_max 0 (Math_round
    (Math_pow (Math_log (ppl + 1)) 1.7 * 11))).

(** *** Word count (line 40) *)

Definition wordCount (sentence : jsstring) : nat :=
  length (filter Boolean_str (split_spaces sentence)).

(** *** HTML escape function (lines 149-156) *)

Definition escapeHtml (unsafe : jsstring) : jsstring :=
  replace_all 39%N (lit "&#039;")
    (replace_all 34%N (lit "&quot;")
      (replace_all 62%N (lit "&gt;")
        (replace_all 60%N (lit "&lt;")
          (replace_all 38%N (lit "&amp;") unsafe)))).

(** *** The [POST /analyze] handler (lines 33-146) *)

(** The values the handler interpolates into the result page. *)
Record Page : Type := {
  page_sentence : jsstring;
  page_wordCount : nat;
  page_weirdness : Z;
  page_perplexityInfo : jsstring;
  page_errorMessage : option jsstring
}.

Inductive reply : Type :=
| Redirect (location : jsstring)
| Send (page : Page).

Definition model_url : jsstring :=
  lit "https://router.huggingface.co/hf-inference/models/HuggingFaceTB/SmolLM3-3B".

Definition msg_no_token : jsstring :=
  lit "HF_TOKEN is not set in environment variables".

Definition msg_no_logprobs : jsstring :=
  lit "No token logprobs returned from model".

Definition msg_api_error (status : N) (errorText : jsstring) : jsstring :=
  lit "Hugging Face API error: " ++ decimal status ++ lit " - " ++ errorText.

Definition info_error : jsstring := lit "Error calculating weirdness".

Definition msg_unreachable : jsstring :=
  lit "Could not reach Hugging Face. Check logs or try again later.".

Section Handler.

(** [Number.prototype.toFixed], left abstract: no property below
    depends on how a number is printed. *)
Variable toFixed : R -> nat -> jsstring.

Variable w : World.

Local Open Scope run_scope.

(** The body of the [try] block (lines 47-92). *)
Definition try_block (sentence : jsstring) : M unit :=
  (if not_str (HF_TOKEN w) then throw (Error msg_no_token) else ret tt) ;;
  let authorization := lit "Bearer " ++ template_str (HF_TOKEN w) in
  emit (Fetch model_url authorization sentence) ;;
  hfResponse <- await (fetch w model_url authorization sentence) ;;
  (if negb (ok hfResponse) then
     errorText <- await (text_body hfResponse) ;;
     throw (Error (msg_api_error (status hfResponse) errorText))
   else ret tt) ;;
  data <- await (json_body hfResponse) ;;
  (if not_length (prefill_length data)
   then throw (Error msg_no_logprobs) else ret tt) ;;
  prefill <- await (data_details_prefill data) ;;
  let ppl := ppl prefill in
  set_weirdness (weirdness ppl) ;;
  set_perplexityInfo
    (lit "Perplexity " ++ [8776%N] ++ lit " " ++ toFixed ppl 1).

(** The [catch] block (lines 93-101); of the logged object only the
    message is kept. *)
Definition catch_block (err : js_error) : M unit :=
  emit (ConsoleError (message err)) ;;
  set_perplexityInfo info_error ;;
  set_errorMessage (Some msg_unreachable).

(** [let weirdness = 0; let perplexityInfo = '—'; let errorMessage = null]. *)
Definition declare_locals : M unit :=
  assign (fun _ => {| var_weirdness := 0;
                      var_perplexityInfo := [8212%N];
                      var_errorMessage := None |}).

Definition read_locals : M Locals := fun s => (Normal (locals s), s).

(** The handler; [body_sentence] is [req.body.sentence], [None] when
    the form field is absent. *)
Definition analyze (body_sentence : option jsstring) : M reply :=
  let sentence :=
    trim (match body_sentence with Some s => s | None => [] end) in
  if negb (Boolean_str sentence) then ret (Redirect (lit "/"))
  else
    let wordCount := wordCount sentence in
    declare_locals ;;
    try_catch (try_block sentence) catch_block ;;
    l <- read_locals ;;
    ret (Send {| page_sentence := escapeHtml sentence;
                 page_wordCount := wordCount;
                 page_weirdness := var_weirdness l;
                 page_perplexityInfo := var_perplexityInfo l;
                 page_errorMessage := var_errorMessage l |}).

(** One request, from a fresh activation and an empty trace. *)
Definition handle (body_sentence : option jsstring)
  : outcome reply * State :=
  analyze body_sentence
          {| locals := {| var_weirdness := 0;
                          var_perplexityInfo := [];
                          var_errorMessage := None |};
             trace := [] |}.

End Handler.

(** *** The result page (lines 104-145) *)

(** A double quote and a line feed of the template. *)
Definition dq : jsstring := [34%N].
Definition nl : jsstring := [10%N].

(** [errorMessage ? `<p class="error">${errorMessage}</p>` : '']. *)
Definition error_paragraph (errorMessage : option jsstring) : jsstring :=
  match errorMessage with
  | None => []
  | Some m =>
      if Boolean_str m
      then lit "<p class=" ++ dq ++ lit "error" ++ dq ++ lit ">" ++ m ++ lit "</p>"
      else []
  end.

(** The body the handler sends for [Send page]: the template literal
    given to [res.send], line by line. The word count and the score
    (an integer between 0 and 100) print as their decimal digits. *)
Definition result_page (page : Page) : jsstring :=
  nl ++
  lit "    <!DOCTYPE html>" ++ nl ++
  lit "    <html lang=" ++ dq ++ lit "en" ++ dq ++ lit ">" ++ nl ++
  lit "    <head>" ++ nl ++
  lit "      <meta charset=" ++ dq ++ lit "UTF-8" ++ dq ++ lit " />" ++ nl ++
  lit "      <meta name=" ++ dq ++ lit "viewport" ++ dq ++ lit " content=" ++ dq ++ lit "width=device-width, initial-scale=1.0" ++ dq ++ lit "/>" ++ nl ++
  lit "      <title>Weirdness Checker 2026</title>" ++ nl ++
  lit "      <link rel=" ++ dq ++ lit "stylesheet" ++ dq ++ lit " href=" ++ dq ++ lit "/style.css" ++ dq ++ lit " />" ++ nl ++
  lit "    </head>" ++ nl ++
  lit "    <body>" ++ nl ++
  lit "      <div class=" ++ dq ++ lit "container" ++ dq ++ lit ">" ++ nl ++
  lit "        <h1>Weirdness Checker (2026)</h1>" ++ nl ++
  lit "        <p>Enter any sentence " ++ [8212%N] ++ lit " get word count + weirdness score (higher = more bizarre)</p>" ++ nl ++
  nl ++
  lit "        <form method=" ++ dq ++ lit "POST" ++ dq ++ lit " action=" ++ dq ++ lit "/analyze" ++ dq ++ lit ">" ++ nl ++
  lit "          <textarea" ++ nl ++
  lit "            name=" ++ dq ++ lit "sentence" ++ dq ++ nl ++
  lit "            placeholder=" ++ dq ++ lit "e.g. flying broccoli eating ten thousand frogs is greater than 50 burritos" ++ dq ++ nl ++
  lit "            required" ++ nl ++
  lit "          >" ++ page_sentence page ++ lit "</textarea>" ++ nl ++
  lit "          <button type=" ++ dq ++ lit "submit" ++ dq ++ lit ">Analyze Weirdness " ++ [8594%N] ++ lit "</button>" ++ nl ++
  lit "        </form>" ++ nl ++
  nl ++
  lit "        <div class=" ++ dq ++ lit "result" ++ dq ++ lit ">" ++ nl ++
  lit "          <h3>Your sentence</h3>" ++ nl ++
  lit "          <p class=" ++ dq ++ lit "sentence" ++ dq ++ lit ">" ++ page_sentence page ++ lit "</p>" ++ nl ++
  lit "          <ul>" ++ nl ++
  lit "            <li>Words: <strong>" ++ decimal (N.of_nat (page_wordCount page)) ++ lit "</strong></li>" ++ nl ++
  lit "            <li>Weirdness: <strong>" ++ decimal (Z.to_N (page_weirdness page)) ++ lit "/100</strong></li>" ++ nl ++
  lit "            <li>" ++ page_perplexityInfo page ++ lit "</li>" ++ nl ++
  lit "          </ul>" ++ nl ++
  lit "          " ++ error_paragraph (page_errorMessage page) ++ nl ++
  lit "          <div class=" ++ dq ++ lit "bar" ++ dq ++ lit ">" ++ nl ++
  lit "            <div class=" ++ dq ++ lit "fill" ++ dq ++ lit " style=" ++ dq ++ lit "width: " ++ decimal (Z.to_N (page_weirdness page)) ++ lit "%" ++ dq ++ lit "></div>" ++ nl ++
  lit "          </div>" ++ nl ++
  lit "        </div>" ++ nl ++
  nl ++
  lit "        <p class=" ++ dq ++ lit "back" ++ dq ++ lit "><a href=" ++ dq ++ lit "/" ++ dq ++ lit ">" ++ [8592%N] ++ lit " Try another sentence</a></p>" ++ nl ++
  lit "      </div>" ++ nl ++
  lit "    </body>" ++ nl ++
  lit "    </html>" ++ nl ++
  lit "  ".

End Server.

(** ** The scoring pipeline over an arithmetic left open *)

(** The handler computes in IEEE-754 double precision, where every
    operation rounds. [Server.ppl] and [Server.weirdness] are lines 80-90
    with exact operations; here the same lines are written over the
    operations of an arithmetic [a], of which the statements ask a few
    order properties only. Exact real arithmetic is one such arithmetic,
    an arithmetic that rounds each result is another. *)

Module Machine.
Import JS Run Server.
Local Open Scope R_scope.

(** The operations of lines 80-90 that round: [+], [*], [/], [Math.exp],
    [Math.log] and [**]. Negation, [Math.round], [Math.min], [Math.max]
    and the length of the token list are exact in double precision and
    stay as they are. *)
Record Arith : Type := {
  fl_add : R -> R -> R;
  fl_mul : R -> R -> R;
  fl_div : R -> R -> R;
  fl_exp : R -> R;
  fl_log : R -> R;
  fl_pow : R -> R -> R
}.

(** Lines 80-82. *)
Definition totalLogProb (a : Arith) (prefill : list Token) : R :=
  reduce (fun x y => fl_add a x y) 0
         (map (fun token => or_zero (logprob token)) prefill).

(** Line 85. *)
Definition avgLogProb (a : Arith) (prefill : list Token) : R :=
  fl_div a (totalLogProb a prefill) (tokenCount prefill).

(** Line 86. *)
Definition ppl (a : Arith) (prefill : list Token) : R :=
  fl_exp a (- avgLogProb a prefill).

(** Lines 88-90. *)
Definition weirdness (a : Arith) (ppl : R) : Z :=
  Math_min 100 (Math_max 0 (Math_round
    (fl_mul a (fl_pow a (fl_log a (fl_add a ppl 1)) 1.7) 11))).

(** The signs the operations keep, in exact arithmetic and under
    rounding alike. *)
Record sound (a : Arith) : Prop := {
  add_nonpos : forall x y, x <= 0 -> y <= 0 -> fl_add a x y <= 0;
  add_one : forall p, 0 <= p -> 1 <= fl_add a p 1;
  mul_nonneg : forall x y, 0 <= x -> 0 <= y -> 0 <= fl_mul a x y;
  div_nonpos : forall x n, x <= 0 -> 0 < n -> fl_div a x n <= 0;
  exp_zero : fl_exp a 0 = 1;
  exp_ge_1 : forall x, 0 <= x -> 1 <= fl_exp a x;
  exp_nonneg : forall x, 0 <= fl_exp a x;
  log_nonneg : forall x, 1 <= x -> 0 <= fl_log a x;
  pow_nonneg : forall x y, 0 <= x -> 0 <= fl_pow a x y
}.

(** The operations do not reverse an order. *)
Record monotone (a : Arith) : Prop := {
  add_mono : forall x y, x <= y -> fl_add a x 1 <= fl_add a y 1;
  mul_mono : forall x y c, 0 <= c -> x <= y -> fl_mul a x c <= fl_mul a y c;
  div_mono : forall x y n, 0 < n -> x <= y -> fl_div a x n <= fl_div a y n;
  exp_mono : forall x y, x <= y -> fl_exp a x <= fl_exp a y;
  log_mono : forall x y, 1 <= x -> x <= y -> fl_log a x <= fl_log a y;
  pow_mono : forall x y e, 0 <= e -> 0 <= x -> x <= y ->
                           fl_pow a x e <= fl_pow a y e
}.

(** Exact real arithmetic, that of [Server.ppl] and [Server.weirdness]. *)
Definition exact : Arith :=
  {| fl_add := Rplus;
     fl_mul := Rmult;
     fl_div := Rdiv;
     fl_exp := Math_exp;
     fl_log := Math_log;
     fl_pow := Math_pow |}.

(** An arithmetic that rounds: every result goes to the nearest multiple
    of 1/1024, a tie upwards. *)
Definition to_grid (x : R) : R := IZR (Zfloor (x * 1024 + / 2)) / 1024.

Definition rounding : Arith :=
  {| fl_add := fun x y => to_grid (x + y);
     fl_mul := fun x y => to_grid (x * y);
     fl_div := fun x y => to_grid (x / y);
     fl_exp := fun x => to_grid (Math_exp x);
     fl_log := fun x => to_grid (Math_log x);
     fl_pow := fun x y => to_grid (Math_pow x y) |}.

End Machine.

(** ** The specification's wording, to compare the code with *)

Module Spec.
Import JS.

(** Section 4.4: the words of a sentence are its maximal runs of
    non-white-space code units; [after_space] tells that a word may
    start at the head of [s]. *)
Fixpoint word_starts (after_space : bool) (s : jsstring) : nat :=
  match s with
  | [] => O
  | c :: s' =>
      if is_space c then word_starts true s'
      else (if after_space then 1 else 0)%nat + word_starts false s'
  end.

Definition count_words (s : jsstring) : nat := word_starts true s.

(** Section 4.4, to the letter: "split the trimmed input on runs of
    whitespace, drop empty fragments, count remainder". [take_word]
    reads up to the next white space; a split goes on after the run of
    white space that follows. *)
Fixpoint take_word (s : jsstring) : jsstring * jsstring :=
  match s with
  | [] => ([], [])
  | c :: s' =>
      if is_space c then ([], s)
      else let (w, rest) := take_word s' in (c :: w, rest)
  end.

Fixpoint fragments_fuel (fuel : nat) (s : jsstring) : list jsstring :=
  match fuel with
  | O => [s]
  | S fuel' =>
      let (w, rest) := take_word s in
      match rest with
      | [] => [w]
      | _ :: _ => w :: fragments_fuel fuel' (trimStart rest)
      end
  end.

Definition fragments (s : jsstring) : list jsstring :=
  fragments_fuel (length s) s.

Definition nonempty (fragment : jsstring) : bool :=
  negb (Nat.eqb (length fragment) 0).

Definition word_count (input : jsstring) : nat :=
  length (filter nonempty (fragments (trim input))).

(** The HTML entity of a code unit; the five special characters are
    the only ones that change. *)
Definition entity (c : code_unit) : jsstring :=
  (if c =? 38 then lit "&amp;"
   else if c =? 60 then lit "&lt;"
   else if c =? 62 then lit "&gt;"
   else if c =? 34 then lit "&quot;"
   else if c =? 39 then lit "&#039;"
   else [c])%N.

Local Open Scope R_scope.

(** Section 4.2: rounding to the nearest integer, a tie going away
    from zero. *)
Definition round_half_away_from_zero (x : R) : Z :=
  if Rle_dec 0 x then Zfloor (x + / 2) else (- Zfloor (- x + / 2))%Z.

(** Section 4.2: [raw = (ln(perplexity + 1)) ^ 1.7 * 11]. *)
Definition raw (perplexity : R) : R :=
  Rpower (ln (perplexity + 1)) 1.7 * 11.

(** Section 4.1: [sum(logprobs)], a missing entry counting for [0]. *)
Fixpoint sum (logprobs : list (option R)) : R :=
  match logprobs with
  | [] => 0
  | None :: l => sum l
  | Some x :: l => x + sum l
  end.

(** Section 4.1: [avgLogProb = sum(logprobs) / count(logprobs)]. *)
Definition avgLogProb (logprobs : list (option R)) : R :=
  sum logprobs / INR (length logprobs).

End Spec.

Import JS Run Server.

(** ** Vocabulary of the statements *)

(** The four ways the provider path fails (specification, section 4.3). *)
Inductive provider_failure (w : World) (sentence : jsstring) : Prop :=
| MissingCredential :
    not_str (HF_TOKEN w) = true ->
    provider_failure w sentence
| TransportFailure (e : js_error) :
    fetch w model_url (lit "Bearer " ++ template_str (HF_TOKEN w)) sentence
    = Thrown e ->
    provider_failure w sentence
| NonSuccessStatus (r : Response) :
    fetch w model_url (lit "Bearer " ++ template_str (HF_TOKEN w)) sentence
    = Normal r ->
    ok r = false ->
    provider_failure w sentence
| EmptyTokenList (r : Response) (data : option Data) :
    fetch w model_url (lit "Bearer " ++ template_str (HF_TOKEN w)) sentence
    = Normal r ->
    ok r = true ->
    json_body r = Normal data ->
    not_length (prefill_length data) = true ->
    provider_failure w sentence.

(** The provider answers [sentence] with a success status and a JSON body
    whose [details.prefill] is [tokens]. *)
Definition provider_returns (w : World) (sentence : jsstring)
           (tokens : list Token) : Prop :=
  not_str (HF_TOKEN w) = false /\
  exists r,
    fetch w model_url (lit "Bearer " ++ template_str (HF_TOKEN w)) sentence
    = Normal r
    /\ ok r = true
    /\ json_body r
       = Normal (Some {| details := Some {| prefill := Some tokens |} |}).

(** The page of the fallback: score [0], the fixed display string and the
    fixed user-facing message. *)
Definition fallback_page (sentence : jsstring) : Page :=
  {| page_sentence := escapeHtml sentence;
     page_wordCount := wordCount sentence;
     page_weirdness := 0;
     page_perplexityInfo := info_error;
     page_errorMessage := Some msg_unreachable |}.

(** The state in which the [try] statement starts. *)
Definition declared_state : State :=
  {| locals := {| var_weirdness := 0;
                  var_perplexityInfo := [8212%N];
                  var_errorMessage := None |};
     trace := [] |}.

(** A world to try the handler in: a credential and a provider that
    answers every sentence with the given response. *)
Definition world_with (token : option jsstring) (r : outcome Response) : World :=
  {| HF_TOKEN := token; fetch := fun _ _ _ => r |}.

Definition json_response (tokens : list Token) : Response :=
  {| ok := true;
     status := 200;
     text_body := Normal [];
     json_body :=
       Normal (Some {| details := Some {| prefill := Some tokens |} |}) |}.

Definition plain_toFixed (x : R) (digits : nat) : jsstring := [].

(** A token that carries the log-probability [x]. *)
Definition tok (x : R) : Token := {| text := []; logprob := Some x |}.

(** A token whose log-probability is missing. *)
Definition tok_missing : Token := {| text := []; logprob := None |}.

Local Open Scope R_scope.

(** Partial sum of the exponential series, up to degree [n]. *)
Definition exp_poly (x : R) (n : nat) : R :=
  sum_f_R0 (fun i => x ^ i / INR (fact i)) n.

(** The same sum, evaluated term by term: [t] is the term of degree [k]. *)
Fixpoint exp_terms (x t : R) (k : Z) (n : nat) : R :=
  match n with
  | O => t
  | S n' => t + exp_terms x (t * x / IZR (k + 1)) (k + 1) n'
  end.

Local Close Scope R_scope.

(** *** Vocabulary of the further properties *)

(** One of the five characters [escapeHtml] rewrites. *)
Definition is_special (c : code_unit) : bool :=
  ((c =? 38) || (c =? 60) || (c =? 62) || (c =? 34) || (c =? 39))%N.

Ltac split_entity x :=
  destruct (N.eqb_spec x 38) as [->|?];
  [|destruct (N.eqb_spec x 60) as [->|?];
    [|destruct (N.eqb_spec x 62) as [->|?];
      [|destruct (N.eqb_spec x 34) as [->|?];
        [|destruct (N.eqb_spec x 39) as [->|?]]]]].

(** The last code unit of [s] is not white space. *)
Fixpoint ends_in_word (s : jsstring) : bool :=
  match s with
  | [] => false
  | c :: s' =>
      match s' with
      | [] => negb (is_space c)
      | _ :: _ => ends_in_word s'
      end
  end.

(** The first code unit of [s] is not white space. *)
Definition starts_in_word (s : jsstring) : bool :=
  match s with
  | [] => false
  | c :: _ => negb (is_space c)
  end.

Definition is_fetch (ev : event) : bool :=
  match ev with
  | Fetch _ _ _ => true
  | ConsoleError _ => false
  end.

(** [req.body.sentence || '']: the empty string when the field is absent. *)
Definition sentence_of (body : option jsstring) : jsstring :=
  match body with Some s => s | None => [] end.

(** The page of a scored sentence. *)
Definition score_page (toFixed : R -> nat -> jsstring) (sentence : jsstring)
           (tokens : list Token) : Page :=
  {| page_sentence := escapeHtml sentence;
     page_wordCount := wordCount sentence;
     page_weirdness := weirdness (ppl tokens);
     page_perplexityInfo :=
       lit "Perplexity " ++ [8776%N] ++ lit " " ++ toFixed (ppl tokens) 1%nat;
     page_errorMessage := None |}.

(** The number of occurrences of [c] in [s]. *)
Definition count (c : code_unit) (s : jsstring) : nat :=
  length (filter (N.eqb c) s).

(** [s] holds neither [<] nor [>]. *)
Definition no_tags (s : jsstring) : Prop :=
  count 60%N s = O /\ count 62%N s = O.

Local Open Scope R_scope.

(** Every log-probability that is present is that of a probability:
    at most 0. *)
Definition valid_logprobs (tokens : list Token) : Prop :=
  Forall (fun t => match logprob t with Some x => x <= 0 | None => True end)
         tokens.

Local Close Scope R_scope.

(** A response with a non-success status and a readable body. *)
Definition error_response (status : N) (errorText : jsstring) : Response :=
  {| ok := false;
     status := status;
     text_body := Normal errorText;
     json_body := Thrown (Error (lit "Unexpected token")) |}.

Ltac count_literals :=
  repeat match goal with
         | |- context [count ?c (lit ?s)] =>
             let v := eval vm_compute in (count c (lit s)) in
             change (count c (lit s)) with v
         end.


(** Unfolds the [try] block down to the tests it makes. *)
Ltac run_try :=
  cbv beta iota zeta delta
      [try_block bind ret throw await emit assign
       set_weirdness set_perplexityInfo set_errorMessage].

(** ** Strings: white space, trimming and splitting *)

Example trim_hello_world :
  trim (lit "  hello   world  ") = lit "hello   world".
Proof. reflexivity. Qed.

Example split_leading_and_trailing :
  split_spaces (lit " a  b ") = [ []; lit "a"; lit "b"; [] ].
Proof. reflexivity. Qed.

Example split_empty : split_spaces [] = [ [] ].
Proof. reflexivity. Qed.

Example wordCount_hello_world :
  wordCount (trim (lit "  hello   world  ")) = 2%nat.
Proof. reflexivity. Qed.

Example escapeHtml_script :
  escapeHtml (lit "<a href='x'>T&C</a>")
  = lit "&lt;a href=&#039;x&#039;&gt;T&amp;C&lt;/a&gt;".
Proof. reflexivity. Qed.

Lemma Boolean_str_rev_cons (c : code_unit) (cur : jsstring) :
  Boolean_str (rev (c :: cur)) = true.
Proof. simpl. destruct (rev cur); reflexivity. Qed.

(** The number of non-empty pieces the scan produces, by the state the
    scan is in. *)
Lemma split_scan_count (s : jsstring) :
  length (filter Boolean_str (split_scan true [] s)) = Spec.word_starts true s
  /\ forall cur,
       length (filter Boolean_str (split_scan false cur s))
       = match cur with
         | [] => Spec.word_starts true s
         | _ :: _ => S (Spec.word_starts false s)
         end.
Proof.
  induction s as [|a s [IHsep IHword]].
  - split; [reflexivity|].
    intros [|c cur]; [reflexivity|].
    cbn [split_scan filter]. now rewrite Boolean_str_rev_cons.
  - split.
    + cbn [split_scan Spec.word_starts].
      destruct (is_space a); [exact IHsep|].
      now rewrite IHword.
    + intros cur. cbn [split_scan Spec.word_starts].
      destruct (is_space a).
      * destruct cur as [|c cur].
        -- cbn [filter rev Boolean_str]. exact IHsep.
        -- cbn [filter]. rewrite Boolean_str_rev_cons.
           cbn [length]. now rewrite IHsep.
      * rewrite IHword. now destruct cur.
Qed.

Lemma wordCount_count_words (s : jsstring) :
  wordCount s = Spec.count_words s.
Proof. exact (proj2 (split_scan_count s) []). Qed.

Lemma trimStart_prefix (s : jsstring) :
  exists ws, forallb is_space ws = true /\ s = ws ++ trimStart s.
Proof.
  induction s as [|c s [ws [Hws Heq]]].
  - now exists [].
  - cbn [trimStart]. destruct (is_space c) eqn:Hc.
    + exists (c :: ws). cbn [forallb]. rewrite Hc, Hws. split; [reflexivity|].
      cbn [app]. now rewrite <- Heq.
    + now exists [].
Qed.

Lemma trimEnd_suffix (s : jsstring) :
  exists ws, forallb is_space ws = true /\ s = trimEnd s ++ ws.
Proof.
  destruct (trimStart_prefix (rev s)) as [ws [Hws Heq]].
  exists (rev ws). split.
  - rewrite forallb_forall in *. intros x Hx. apply Hws. now apply in_rev.
  - unfold trimEnd. rewrite <- rev_app_distr, <- Heq. now rewrite rev_involutive.
Qed.

Lemma word_starts_spaces (b : bool) (ws : jsstring) :
  forallb is_space ws = true -> Spec.word_starts b ws = O.
Proof.
  revert b. induction ws as [|c ws IH]; intros b H; [reflexivity|].
  cbn [forallb] in H. apply andb_prop in H as [Hc Hws].
  cbn [Spec.word_starts]. rewrite Hc. now apply IH.
Qed.

Lemma word_starts_app_spaces (b : bool) (s ws : jsstring) :
  forallb is_space ws = true ->
  Spec.word_starts b (s ++ ws) = Spec.word_starts b s.
Proof.
  intros Hws. revert b. induction s as [|c s IH]; intros b.
  - now apply word_starts_spaces.
  - cbn [app Spec.word_starts]. destruct (is_space c); now rewrite IH.
Qed.

Lemma count_words_trimStart (s : jsstring) :
  Spec.count_words (trimStart s) = Spec.count_words s.
Proof.
  unfold Spec.count_words. induction s as [|c s IH]; [reflexivity|].
  cbn [trimStart]. destruct (is_space c) eqn:Hc; [|reflexivity].
  cbn [Spec.word_starts]. now rewrite Hc.
Qed.

Lemma count_words_trim (s : jsstring) :
  Spec.count_words (trim s) = Spec.count_words s.
Proof.
  unfold trim. rewrite <- (count_words_trimStart s).
  destruct (trimEnd_suffix (trimStart s)) as [ws [Hws Heq]].
  rewrite Heq at 2. unfold Spec.count_words.
  now rewrite word_starts_app_spaces.
Qed.

Lemma trimStart_length (s : jsstring) : (length (trimStart s) <= length s)%nat.
Proof.
  induction s as [|c s IH]; [reflexivity|].
  cbn [trimStart]. destruct (is_space c); cbn [length]; lia.
Qed.

Lemma take_word_rest (s : jsstring) :
  match snd (Spec.take_word s) with
  | [] => True
  | c :: r => is_space c = true /\ (length r < length s)%nat
  end.
Proof.
  induction s as [|c s IH]; [exact I|].
  cbn [Spec.take_word]. destruct (is_space c) eqn:Hc.
  - cbn [snd length]. split; [assumption | lia].
  - destruct (Spec.take_word s) as [w rest]. cbn [snd] in *.
    destruct rest as [|c' r]; [exact I|].
    destruct IH as [Hc' Hlen]. split; [assumption|]. cbn [length]. lia.
Qed.

Lemma split_scan_skip (s : jsstring) :
  split_scan true [] s = split_scan false [] (trimStart s).
Proof.
  induction s as [|c s IH]; [reflexivity|].
  cbn [split_scan trimStart]. destruct (is_space c) eqn:Hc; [exact IH|].
  cbn [split_scan]. now rewrite Hc.
Qed.

Lemma split_scan_take_word (s cur : jsstring) :
  split_scan false cur s
  = match Spec.take_word s with
    | (w, []) => [rev cur ++ w]
    | (w, c :: r) => (rev cur ++ w) :: split_scan false [] (trimStart (c :: r))
    end.
Proof.
  revert cur. induction s as [|c s IH]; intros cur.
  - cbn. now rewrite app_nil_r.
  - cbn [split_scan Spec.take_word]. destruct (is_space c) eqn:Hc.
    + rewrite app_nil_r. cbn [trimStart]. rewrite Hc.
      now rewrite split_scan_skip.
    + rewrite IH. destruct (Spec.take_word s) as [w [|c' r]];
        cbn [rev]; now rewrite <- app_assoc.
Qed.

Lemma fragments_fuel_scan (fuel : nat) (s : jsstring) :
  (length s <= fuel)%nat -> Spec.fragments_fuel fuel s = split_scan false [] s.
Proof.
  revert s. induction fuel as [|fuel IH]; intros s Hlen.
  - destruct s; [reflexivity | cbn [length] in Hlen; lia].
  - cbn [Spec.fragments_fuel]. rewrite split_scan_take_word.
    assert (Hrest := take_word_rest s).
    destruct (Spec.take_word s) as [w [|c r]]; [reflexivity|].
    cbn [snd] in Hrest. destruct Hrest as [Hc Hr].
    cbn [rev app]. f_equal. apply IH.
    cbn [trimStart]. rewrite Hc.
    generalize (trimStart_length r). lia.
Qed.

Lemma split_spaces_fragments (s : jsstring) : split_spaces s = Spec.fragments s.
Proof. symmetry. now apply fragments_fuel_scan. Qed.

Lemma Boolean_str_nonempty (s : jsstring) : Boolean_str s = Spec.nonempty s.
Proof. now destruct s. Qed.

Lemma wordCount_word_count (raw : jsstring) :
  wordCount (trim raw) = Spec.word_count raw.
Proof.
  unfold wordCount, Spec.word_count. rewrite split_spaces_fragments.
  f_equal. apply filter_ext. exact Boolean_str_nonempty.
Qed.

(** ** [escapeHtml] *)

Lemma replace_all_flat_map (c : code_unit) (rep : jsstring)
      (f : code_unit -> jsstring) (s : jsstring) :
  replace_all c rep (flat_map f s)
  = flat_map (fun x => replace_all c rep (f x)) s.
Proof.
  induction s as [|x s IH]; [reflexivity|].
  simpl. rewrite <- IH. unfold replace_all. now rewrite flat_map_app.
Qed.

Lemma escape_one (x : code_unit) : escapeHtml [x] = Spec.entity x.
Proof.
  unfold escapeHtml, Spec.entity, replace_all.
  cbn [flat_map app].
  destruct (N.eqb_spec x 38) as [->|H38]; [reflexivity|].
  cbn [flat_map app].
  destruct (N.eqb_spec x 60) as [->|H60]; [reflexivity|].
  cbn [flat_map app].
  destruct (N.eqb_spec x 62) as [->|H62]; [reflexivity|].
  cbn [flat_map app].
  destruct (N.eqb_spec x 34) as [->|H34]; [reflexivity|].
  cbn [flat_map app].
  destruct (N.eqb_spec x 39) as [->|H39]; reflexivity.
Qed.

Lemma escapeHtml_flat_map (s : jsstring) :
  escapeHtml s = flat_map Spec.entity s.
Proof.
  transitivity (flat_map (fun x => escapeHtml [x]) s).
  - unfold escapeHtml.
    replace (replace_all 38%N (lit "&amp;") s)
      with (flat_map (fun x => replace_all 38%N (lit "&amp;") [x]) s).
    + now rewrite !replace_all_flat_map.
    + unfold replace_all. apply flat_map_ext. intros a. cbn [flat_map].
      now rewrite app_nil_r.
  - apply flat_map_ext. exact escape_one.
Qed.

Lemma entity_no_raw (x c : code_unit) :
  In c (Spec.entity x) -> (c <> 60 /\ c <> 62 /\ c <> 34 /\ c <> 39)%N.
Proof.
  unfold Spec.entity.
  destruct (N.eqb_spec x 38); [cbn; intuition (subst; discriminate)|].
  destruct (N.eqb_spec x 60); [cbn; intuition (subst; discriminate)|].
  destruct (N.eqb_spec x 62); [cbn; intuition (subst; discriminate)|].
  destruct (N.eqb_spec x 34); [cbn; intuition (subst; discriminate)|].
  destruct (N.eqb_spec x 39); [cbn; intuition (subst; discriminate)|].
  cbn. intros [<-|[]]. auto.
Qed.

(** ** The handler *)

Lemma nonempty_Boolean (s : jsstring) : s <> [] -> Boolean_str s = true.
Proof. destruct s; [congruence | reflexivity]. Qed.

(** A throw of the [try] block leaves the locals as they were: every
    throwing statement comes before the first assignment. *)
Lemma try_block_thrown_locals toFixed w sentence s e s' :
  try_block toFixed w sentence s = (Thrown e, s') -> locals s' = locals s.
Proof.
  run_try. cbv beta iota zeta delta [negb locals].
  destruct (not_str (HF_TOKEN w)); [now intros [= _ <-]|].
  destruct (fetch w _ _ sentence) as [r|e1]; [|now intros [= _ <-]].
  destruct (ok r).
  - destruct (json_body r) as [data|e2]; [|now intros [= _ <-]].
    destruct (not_length (prefill_length data)); [now intros [= _ <-]|].
    destruct (data_details_prefill data); [discriminate | now intros [= _ <-]].
  - destruct (text_body r); now intros [= _ <-].
Qed.

(** The reply to a non-empty sentence, by the way the [try] block ends. *)
Lemma handle_send toFixed w raw :
  trim raw <> [] ->
  handle toFixed w (Some raw)
  = match try_block toFixed w (trim raw) declared_state with
    | (Normal _, s') =>
        (Normal (Send {| page_sentence := escapeHtml (trim raw);
                         page_wordCount := wordCount (trim raw);
                         page_weirdness := var_weirdness (locals s');
                         page_perplexityInfo := var_perplexityInfo (locals s');
                         page_errorMessage := var_errorMessage (locals s') |}),
         s')
    | (Thrown e, s') =>
        (Normal (Send {| page_sentence := escapeHtml (trim raw);
                         page_wordCount := wordCount (trim raw);
                         page_weirdness := var_weirdness (locals s');
                         page_perplexityInfo := info_error;
                         page_errorMessage := Some msg_unreachable |}),
         {| locals := {| var_weirdness := var_weirdness (locals s');
                         var_perplexityInfo := info_error;
                         var_errorMessage := Some msg_unreachable |};
            trace := trace s' ++ [ConsoleError (message e)] |})
    end.
Proof.
  intros Hne. unfold handle, analyze.
  rewrite (nonempty_Boolean Hne). cbn [negb].
  unfold bind at 1. cbn [declare_locals assign locals trace].
  fold declared_state.
  unfold bind at 1. unfold try_catch.
  destruct (try_block toFixed w (trim raw) declared_state) as [[[]|e] s'];
    reflexivity.
Qed.

(** The reply to an empty or absent sentence: a redirect to the form,
    without any effect. *)
Lemma handle_redirect toFixed w body :
  trim (match body with Some s => s | None => [] end) = [] ->
  handle toFixed w body
  = (Normal (Redirect (lit "/")),
     {| locals := {| var_weirdness := 0;
                     var_perplexityInfo := [];
                     var_errorMessage := None |};
        trace := [] |}).
Proof. intros H. unfold handle, analyze. now rewrite H. Qed.

(** The handler always answers: nothing is thrown past it. *)
Lemma handle_total toFixed w body :
  exists r st, handle toFixed w body = (Normal r, st).
Proof.
  destruct (trim (match body with Some s => s | None => [] end)) eqn:Ht.
  - rewrite (handle_redirect toFixed w body Ht). eauto.
  - destruct body as [raw|]; [|discriminate].
    rewrite handle_send by congruence.
    destruct (try_block _ _ _ _) as [[[]|e] s']; eauto.
Qed.

(** Each failure of the provider path ends the [try] block by a throw. *)
Lemma failure_throws toFixed w sentence s :
  provider_failure w sentence ->
  exists e s', try_block toFixed w sentence s = (Thrown e, s').
Proof.
  intros [Htok | e He | r Hr Hok | r data Hr Hok Hjson Hlen]; run_try.
  - rewrite Htok. eauto.
  - destruct (not_str (HF_TOKEN w)); [eauto|]. rewrite He. eauto.
  - destruct (not_str (HF_TOKEN w)); [eauto|]. rewrite Hr, Hok. cbn [negb].
    destruct (text_body r); eauto.
  - destruct (not_str (HF_TOKEN w)); [eauto|].
    rewrite Hr, Hok. cbn [negb]. rewrite Hjson, Hlen. eauto.
Qed.

(** Without a credential the [try] block throws at once, in the state it
    started in. *)
Lemma no_token_throws toFixed w sentence s :
  not_str (HF_TOKEN w) = true ->
  try_block toFixed w sentence s = (Thrown (Error msg_no_token), s).
Proof. intros H. run_try. now rewrite H. Qed.

(** The successful run of the [try] block. *)
Lemma success_run toFixed w sentence tokens s :
  provider_returns w sentence tokens ->
  tokens <> [] ->
  try_block toFixed w sentence s
  = (Normal tt,
     {| locals :=
          {| var_weirdness := weirdness (ppl tokens);
             var_perplexityInfo :=
               lit "Perplexity " ++ [8776%N] ++ lit " "
                   ++ toFixed (ppl tokens) 1%nat;
             var_errorMessage := var_errorMessage (locals s) |};
        trace :=
          trace s ++ [Fetch model_url
                            (lit "Bearer " ++ template_str (HF_TOKEN w))
                            sentence] |}).
Proof.
  intros [Htok [r [Hr [Hok Hjson]]]] Hne. run_try.
  rewrite Htok, Hr, Hok. cbn [negb]. rewrite Hjson.
  destruct tokens as [|t tokens]; [congruence|].
  reflexivity.
Qed.

Lemma handle_success toFixed w raw tokens :
  trim raw <> [] ->
  provider_returns w (trim raw) tokens ->
  tokens <> [] ->
  fst (handle toFixed w (Some raw))
  = Normal (Send {| page_sentence := escapeHtml (trim raw);
                    page_wordCount := wordCount (trim raw);
                    page_weirdness := weirdness (ppl tokens);
                    page_perplexityInfo :=
                      lit "Perplexity " ++ [8776%N] ++ lit " "
                          ++ toFixed (ppl tokens) 1%nat;
                    page_errorMessage := None |}).
Proof.
  intros Hraw Hret Hne.
  rewrite handle_send by assumption.
  now rewrite (success_run toFixed declared_state Hret Hne).
Qed.

(** C3. For a non-empty sentence, whenever the provider path fails (no
    credential, a transport failure, a non-success status, or no token in
    the answer) the handler still answers normally, with the page of the
    fallback: score 0, the fixed display string "Error calculating
    weirdness" and the error message set. Nothing is thrown past the
    handler. *)
Theorem analyze_failure_fallback toFixed w raw :
  trim raw <> [] ->
  provider_failure w (trim raw) ->
  exists st,
    handle toFixed w (Some raw) = (Normal (Send (fallback_page (trim raw))), st).
Proof.
  intros Hraw Hfail.
  rewrite handle_send by assumption.
  destruct (failure_throws toFixed declared_state Hfail) as [e [s' Hrun]].
  rewrite Hrun.
  rewrite (try_block_thrown_locals _ _ _ _ Hrun).
  eexists. reflexivity.
Qed.

Lemma analyze_failure_fallback_witness :
  exists st,
    handle plain_toFixed
           (world_with (Some (lit "hf_x")) (Normal (json_response [])))
           (Some (lit " colorless green ideas "))
    = (Normal (Send (fallback_page (trim (lit " colorless green ideas ")))), st).
Proof.
  apply analyze_failure_fallback.
  - discriminate.
  - eapply EmptyTokenList; reflexivity.
Defined.

(** C9. For a non-empty sentence, when [HF_TOKEN] is absent (or empty)
    the [try] block throws the credential error before it reaches
    [fetch]: the state is untouched at the throw, and the trace of the
    whole request holds the logged error only, no [Fetch] event. *)
Theorem missing_token_raises_before_fetch toFixed w raw :
  trim raw <> [] ->
  not_str (HF_TOKEN w) = true ->
  try_block toFixed w (trim raw) declared_state
  = (Thrown (Error msg_no_token), declared_state)
  /\ trace (snd (handle toFixed w (Some raw))) = [ConsoleError msg_no_token]
  /\ forall url authorization inputs,
       ~ In (Fetch url authorization inputs)
            (trace (snd (handle toFixed w (Some raw)))).
Proof.
  intros Hraw Htok.
  assert (Hrun := no_token_throws toFixed w (trim raw) declared_state Htok).
  assert (Htrace : trace (snd (handle toFixed w (Some raw)))
                   = [ConsoleError msg_no_token]).
  { rewrite handle_send by assumption. now rewrite Hrun. }
  repeat split; try assumption.
  intros url authorization inputs. rewrite Htrace.
  intros [H|[]]. discriminate.
Qed.

Lemma missing_token_raises_before_fetch_witness :
  try_block plain_toFixed (world_with None (Normal (json_response [])))
            (trim (lit "hello world")) declared_state
  = (Thrown (Error msg_no_token), declared_state)
  /\ trace (snd (handle plain_toFixed
                        (world_with None (Normal (json_response [])))
                        (Some (lit "hello world"))))
     = [ConsoleError msg_no_token]
  /\ forall url authorization inputs,
       ~ In (Fetch url authorization inputs)
            (trace (snd (handle plain_toFixed
                                (world_with None (Normal (json_response [])))
                                (Some (lit "hello world"))))).
Proof.
  apply missing_token_raises_before_fetch.
  - discriminate.
  - reflexivity.
Defined.

(** ** The perplexity estimator *)

Local Open Scope R_scope.

Lemma reduce_plus_sum (tokens : list Token) (a : R) :
  reduce (fun a b => a + b) a (map (fun token => or_zero (logprob token)) tokens)
  = a + Spec.sum (map logprob tokens).
Proof.
  unfold reduce. revert a.
  induction tokens as [|t tokens IH]; intros a; cbn [map fold_left Spec.sum].
  - ring.
  - rewrite IH. destruct (logprob t); cbn [or_zero]; ring.
Qed.

Lemma totalLogProb_sum (tokens : list Token) :
  totalLogProb tokens = Spec.sum (map logprob tokens).
Proof. unfold totalLogProb. rewrite reduce_plus_sum. ring. Qed.

Lemma avgLogProb_spec (tokens : list Token) :
  avgLogProb tokens = Spec.avgLogProb (map logprob tokens).
Proof.
  unfold avgLogProb, Spec.avgLogProb, tokenCount.
  now rewrite totalLogProb_sum, length_map.
Qed.

Lemma sum_app (l1 l2 : list (option R)) :
  Spec.sum (l1 ++ l2) = Spec.sum l1 + Spec.sum l2.
Proof.
  induction l1 as [|[x|] l1 IH]; cbn [app Spec.sum]; rewrite ?IH; ring.
Qed.

(** ** The weirdness scorer *)

Lemma ln_succ_pos (p : R) : 0 < p -> 0 < ln (p + 1).
Proof.
  intros Hp. rewrite <- ln_1. apply ln_increasing; lra.
Qed.

Lemma Math_pow_pos (x y : R) : 0 < x -> Math_pow x y = Rpower x y.
Proof.
  intros Hx. unfold Math_pow. destruct (Rle_dec x 0); [lra | reflexivity].
Qed.

Lemma Rpower_pos (x y : R) : 0 < Rpower x y.
Proof. unfold Rpower. apply exp_pos. Qed.

(** What the scorer rounds is the [raw] value of the specification. *)
Lemma scorer_raw (p : R) :
  0 < p -> Math_pow (Math_log (p + 1)) 1.7 * 11 = Spec.raw p.
Proof.
  intros Hp. unfold Math_log, Spec.raw.
  now rewrite Math_pow_pos by now apply ln_succ_pos.
Qed.

Lemma raw_pos (p : R) : 0 < Spec.raw p.
Proof. unfold Spec.raw. generalize (Rpower_pos (ln (p + 1)) 1.7). lra. Qed.

Lemma weirdness_raw (p : R) :
  0 < p -> weirdness p = Z.min 100 (Z.max 0 (Math_round (Spec.raw p))).
Proof.
  intros Hp. unfold weirdness, Math_min, Math_max. now rewrite scorer_raw.
Qed.

Lemma raw_increasing (p1 p2 : R) :
  0 < p1 -> p1 < p2 -> Spec.raw p1 < Spec.raw p2.
Proof.
  intros H1 H12. unfold Spec.raw.
  apply Rmult_lt_compat_r; [lra|].
  apply Rlt_Rpower_l; [lra|].
  split; [now apply ln_succ_pos|].
  apply ln_increasing; lra.
Qed.

Lemma Math_round_le (x y : R) : x <= y -> (Math_round x <= Math_round y)%Z.
Proof. intros H. unfold Math_round. apply Zfloor_le. lra. Qed.

(** [Math.round] and rounding half away from zero part on the negative
    ties only. *)
Example Math_round_negative_tie :
  Math_round (- (5 / 2)) = (-2)%Z
  /\ Spec.round_half_away_from_zero (- (5 / 2)) = (-3)%Z.
Proof.
  split.
  - unfold Math_round. apply Zfloor_eq. simpl. lra.
  - unfold Spec.round_half_away_from_zero.
    destruct (Rle_dec 0 (- (5 / 2))); [lra|].
    replace (- - (5 / 2) + / 2) with (IZR 3) by (simpl; lra).
    now rewrite ZfloorZ.
Qed.

(** ** The pipeline in any arithmetic *)

Lemma Machine_exact_ppl (tokens : list Token) :
  Machine.ppl Machine.exact tokens = ppl tokens.
Proof. reflexivity. Qed.

Lemma Machine_exact_weirdness (p : R) :
  Machine.weirdness Machine.exact p = weirdness p.
Proof. reflexivity. Qed.

Lemma Math_pow_nonneg (x y : R) : 0 <= Math_pow x y.
Proof.
  unfold Math_pow. destruct (Rle_dec x 0); [lra|].
  left. apply Rpower_pos.
Qed.

Lemma Math_pow_le (x y e : R) :
  0 <= e -> 0 <= x -> x <= y -> Math_pow x e <= Math_pow y e.
Proof.
  intros He Hx Hxy. unfold Math_pow.
  destruct (Rle_dec x 0) as [Hx0|Hx0].
  - destruct (Rle_dec y 0); [lra|]. left. apply Rpower_pos.
  - destruct (Rle_dec y 0); [lra|]. apply Rle_Rpower_l; lra.
Qed.

Lemma ln_nonneg (x : R) : 1 <= x -> 0 <= ln x.
Proof.
  intros [H|<-]; [|rewrite ln_1; lra].
  left. rewrite <- ln_1. apply ln_increasing; lra.
Qed.

Lemma ln_le (x y : R) : 1 <= x -> x <= y -> ln x <= ln y.
Proof.
  intros Hx [H|<-]; [|lra]. left. apply ln_increasing; lra.
Qed.

Lemma exp_nondecreasing (x y : R) : x <= y -> exp x <= exp y.
Proof.
  intros [H|<-]; [left; now apply exp_increasing | right; reflexivity].
Qed.

Lemma exp_ge_1_nonneg (x : R) : 0 <= x -> 1 <= exp x.
Proof. intros H. rewrite <- exp_0. now apply exp_nondecreasing. Qed.

Lemma exact_sound : Machine.sound Machine.exact.
Proof.
  constructor; cbn [Machine.exact Machine.fl_add Machine.fl_mul Machine.fl_div
                    Machine.fl_exp Machine.fl_log Machine.fl_pow];
    unfold Math_exp, Math_log.
  - intros; lra.
  - intros; lra.
  - intros. now apply Rmult_le_pos.
  - intros x n Hx Hn. assert (Hi : 0 < / n) by now apply Rinv_0_lt_compat.
    unfold Rdiv. nra.
  - apply exp_0.
  - apply exp_ge_1_nonneg.
  - intros x. left. apply exp_pos.
  - apply ln_nonneg.
  - intros x y _. apply Math_pow_nonneg.
Qed.

Lemma exact_monotone : Machine.monotone Machine.exact.
Proof.
  constructor; cbn [Machine.exact Machine.fl_add Machine.fl_mul Machine.fl_div
                    Machine.fl_exp Machine.fl_log Machine.fl_pow];
    unfold Math_exp, Math_log.
  - intros; lra.
  - intros; nra.
  - intros x y n Hn Hxy. assert (Hi : 0 < / n) by now apply Rinv_0_lt_compat.
    unfold Rdiv. nra.
  - apply exp_nondecreasing.
  - apply ln_le.
  - intros x y e. apply Math_pow_le.
Qed.

Lemma to_grid_le (x y : R) : x <= y -> Machine.to_grid x <= Machine.to_grid y.
Proof.
  intros H. unfold Machine.to_grid.
  assert (Hz : (Zfloor (x * 1024 + / 2) <= Zfloor (y * 1024 + / 2))%Z)
    by (apply Zfloor_le; lra).
  apply IZR_le in Hz. lra.
Qed.

Lemma to_grid_IZR (k : Z) : Machine.to_grid (IZR k) = IZR k.
Proof.
  unfold Machine.to_grid.
  rewrite (@Zfloor_eq (k * 1024)%Z); [rewrite mult_IZR; field|].
  rewrite mult_IZR. lra.
Qed.

Lemma to_grid_nonpos (x : R) : x <= 0 -> Machine.to_grid x <= 0.
Proof. intros H. rewrite <- (to_grid_IZR 0). now apply to_grid_le. Qed.

Lemma to_grid_nonneg (x : R) : 0 <= x -> 0 <= Machine.to_grid x.
Proof. intros H. rewrite <- (to_grid_IZR 0). now apply to_grid_le. Qed.

Lemma to_grid_ge_1 (x : R) : 1 <= x -> 1 <= Machine.to_grid x.
Proof. intros H. rewrite <- (to_grid_IZR 1). now apply to_grid_le. Qed.

Lemma rounding_sound : Machine.sound Machine.rounding.
Proof.
  constructor; cbn [Machine.rounding Machine.fl_add Machine.fl_mul Machine.fl_div
                    Machine.fl_exp Machine.fl_log Machine.fl_pow];
    unfold Math_exp, Math_log.
  - intros. apply to_grid_nonpos. lra.
  - intros. apply to_grid_ge_1. lra.
  - intros. apply to_grid_nonneg. now apply Rmult_le_pos.
  - intros x n Hx Hn. apply to_grid_nonpos.
    assert (Hi : 0 < / n) by now apply Rinv_0_lt_compat.
    unfold Rdiv. nra.
  - rewrite exp_0. apply (to_grid_IZR 1).
  - intros. apply to_grid_ge_1. now apply exp_ge_1_nonneg.
  - intros x. apply to_grid_nonneg. left. apply exp_pos.
  - intros. apply to_grid_nonneg. now apply ln_nonneg.
  - intros x y _. apply to_grid_nonneg. apply Math_pow_nonneg.
Qed.

Lemma rounding_monotone : Machine.monotone Machine.rounding.
Proof.
  constructor; cbn [Machine.rounding Machine.fl_add Machine.fl_mul Machine.fl_div
                    Machine.fl_exp Machine.fl_log Machine.fl_pow];
    unfold Math_exp, Math_log; intros; apply to_grid_le.
  - lra.
  - nra.
  - assert (Hi : 0 < / n) by now apply Rinv_0_lt_compat. unfold Rdiv. nra.
  - now apply exp_nondecreasing.
  - now apply ln_le.
  - now apply Math_pow_le.
Qed.




(** C4. The scorer is non-decreasing in the perplexity: for positive
    [p1 < p2] the raw value grows, its rounding before the clamp does not
    decrease, and neither does the clamped score. *)
Theorem weirdness_monotone (p1 p2 : R) :
  0 < p1 -> p1 < p2 ->
  Math_pow (Math_log (p1 + 1)) 1.7 * 11 < Math_pow (Math_log (p2 + 1)) 1.7 * 11
  /\ (Math_round (Math_pow (Math_log (p1 + 1)) 1.7 * 11)
      <= Math_round (Math_pow (Math_log (p2 + 1)) 1.7 * 11))%Z
  /\ (weirdness p1 <= weirdness p2)%Z.
Proof.
  intros H1 H12.
  assert (Hraw := raw_increasing H1 H12).
  assert (Hround : (Math_round (Spec.raw p1) <= Math_round (Spec.raw p2))%Z).
  { apply Math_round_le. now left. }
  rewrite !scorer_raw by lra. split; [exact Hraw|]. split; [exact Hround|].
  rewrite !weirdness_raw by lra. lia.
Qed.

Lemma weirdness_monotone_witness :
  Math_pow (Math_log (1 + 1)) 1.7 * 11 < Math_pow (Math_log (2 + 1)) 1.7 * 11
  /\ (Math_round (Math_pow (Math_log (1 + 1)) 1.7 * 11)
      <= Math_round (Math_pow (Math_log (2 + 1)) 1.7 * 11))%Z
  /\ (weirdness 1 <= weirdness 2)%Z.
Proof. apply weirdness_monotone; lra. Defined.

(** ** Bounds on [exp] and [ln] at rational points *)

Lemma exp_series (x : R) :
  Un_cv (fun n => exp_poly x n) (exp x).
Proof.
  unfold exp. destruct (exist_exp x) as [l Hl]. cbn [proj1_sig].
  intros eps Heps. destruct (Hl eps Heps) as [N HN].
  exists N. intros n Hn. unfold exp_poly.
  rewrite (sum_eq _ (fun i => / INR (fact i) * x ^ i)); [now apply HN|].
  intros i _. unfold Rdiv. ring.
Qed.

Lemma exp_poly_le_exp (x : R) (n : nat) : 0 <= x -> exp_poly x n <= exp x.
Proof.
  intros Hx. unfold exp_poly. apply sum_incr.
  - exact (exp_series x).
  - intros i. apply Rmult_le_pos.
    + now apply pow_le.
    + left. apply Rinv_0_lt_compat, INR_fact_lt_0.
Qed.

Lemma exp_poly_odd_le_exp_neg (x : R) (N : nat) :
  0 <= x <= 1 -> exp_poly (- x) (S (2 * N)) <= exp (- x).
Proof.
  intros [H0 H1].
  assert (Heq : forall n, exp_poly (- x) n
                     = sum_f_R0 (tg_alt (fun i => x ^ i / INR (fact i))) n).
  { intros n. unfold exp_poly. apply sum_eq. intros i _. unfold tg_alt.
    replace (- x) with (-1 * x) by ring. rewrite Rpow_mult_distr.
    unfold Rdiv. ring. }
  rewrite Heq.
  apply (alternated_series_ineq (fun i => x ^ i / INR (fact i)) (exp (- x)) N).
  - intros n. rewrite fact_simpl, mult_INR. cbn [pow].
    assert (Hf := INR_fact_lt_0 n).
    assert (Hp := pow_le x n H0).
    assert (Hs : 1 <= INR (S n)).
    { rewrite S_INR. generalize (pos_INR n). lra. }
    unfold Rdiv. rewrite Rinv_mult.
    assert (Hi : 0 < / INR (fact n)) by now apply Rinv_0_lt_compat.
    assert (Hj : / INR (S n) <= 1).
    { rewrite <- Rinv_1. apply Rinv_le_contravar; lra. }
    assert (Hj0 : 0 < / INR (S n)) by (apply Rinv_0_lt_compat; lra).
    replace (x * x ^ n * (/ INR (S n) * / INR (fact n)))
      with ((x * / INR (S n)) * (x ^ n * / INR (fact n))) by ring.
    rewrite <- (Rmult_1_l (x ^ n * / INR (fact n))) at 2.
    apply Rmult_le_compat_r.
    + apply Rmult_le_pos; lra.
    + replace 1 with (1 * 1) by ring.
      apply Rmult_le_compat; lra.
  - exact (cv_speed_pow_fact x).
  - intros eps Heps. destruct (exp_series (- x) Heps) as [M HM].
    exists M. intros n Hn. rewrite <- Heq. now apply HM.
Qed.

Lemma exp_terms_shift (x : R) (k : nat) (n : nat) :
  exp_terms x (x ^ k / INR (fact k)) (Z.of_nat k) n
  = sum_f_R0 (fun i => x ^ (k + i) / INR (fact (k + i))) n.
Proof.
  revert k. induction n as [|n IH]; intros k.
  - cbn. now rewrite Nat.add_0_r.
  - cbn [exp_terms]. rewrite decomp_sum by lia.
    rewrite Nat.add_0_r. f_equal.
    replace (Z.of_nat k + 1)%Z with (Z.of_nat (S k)) by lia.
    replace (x ^ k / INR (fact k) * x / IZR (Z.of_nat (S k)))
      with (x ^ S k / INR (fact (S k))).
    + rewrite IH. cbn [Init.Nat.pred]. apply sum_eq. intros i _.
      now replace (S k + i)%nat with (k + S i)%nat by lia.
    + rewrite fact_simpl, mult_INR, <- INR_IZR_INZ. cbn [pow].
      field. split.
      * apply INR_fact_neq_0.
      * apply not_0_INR. lia.
Qed.

Lemma exp_poly_terms (x : R) (n : nat) : exp_poly x n = exp_terms x 1 0 n.
Proof.
  generalize (exp_terms_shift x 0 n).
  cbn [pow fact Z.of_nat Nat.add INR]. intros H.
  unfold exp_poly. rewrite <- H. f_equal. field.
Qed.


(** An upper bound of [exp x] on [0, 1], from the series of [exp (- x)]. *)
Lemma exp_le_inv_poly (x : R) (N : nat) :
  0 <= x <= 1 -> 0 < exp_poly (- x) (S (2 * N)) ->
  exp x <= / exp_poly (- x) (S (2 * N)).
Proof.
  intros Hx Hpos.
  assert (H := exp_poly_odd_le_exp_neg N Hx).
  replace (exp x) with (/ exp (- x)).
  - apply Rinv_le_contravar; assumption.
  - rewrite exp_Ropp. apply Rinv_inv.
Qed.

Lemma exp_le_by_poly (x c : R) (N : nat) :
  0 <= x <= 1 -> 0 < c -> / c <= exp_terms (- x) 1 0 (S (2 * N)) ->
  exp x <= c.
Proof.
  intros Hx Hc H. rewrite <- exp_poly_terms in H.
  assert (Hi : 0 < / c) by now apply Rinv_0_lt_compat.
  apply Rle_trans with (/ exp_poly (- x) (S (2 * N))).
  - apply exp_le_inv_poly; [assumption | lra].
  - rewrite <- (Rinv_inv c). apply Rinv_le_contravar; assumption.
Qed.

Lemma exp_ge_by_poly (x c : R) (n : nat) :
  0 <= x -> c <= exp_terms x 1 0 n -> c <= exp x.
Proof.
  intros Hx H. rewrite <- exp_poly_terms in H.
  apply Rle_trans with (1 := H). now apply exp_poly_le_exp.
Qed.

Lemma exp_1_upper : exp 1 <= 2.718282.
Proof.
  apply (@exp_le_by_poly 1 2.718282 5); [lra | lra |].
  cbn. lra.
Qed.

Lemma exp_1_lower : 2.71828 <= exp 1.
Proof. apply (@exp_ge_by_poly 1 2.71828 9); [lra|]. cbn. lra. Qed.

Lemma exp_nat (n : nat) : exp (INR n) = exp 1 ^ n.
Proof.
  induction n as [|n IH].
  - cbn. apply exp_0.
  - rewrite S_INR, exp_plus, IH. cbn [pow]. ring.
Qed.

Lemma exp_10_bounds : 22026 < exp 10 < 22027.
Proof.
  replace 10 with (INR 10) by (cbn; lra).
  rewrite exp_nat.
  assert (Hl := exp_1_lower). assert (Hu := exp_1_upper).
  split.
  - apply Rlt_le_trans with (2.71828 ^ 10); [cbn; lra|].
    apply pow_incr. lra.
  - apply Rle_lt_trans with (2.718282 ^ 10); [|cbn; lra].
    apply pow_incr. generalize (exp_pos 1). lra.
Qed.

(** [ln] between two rationals, by the exponential of the bounds. *)
Lemma ln_le_by_exp (x a : R) : 0 < x -> x <= exp a -> ln x <= a.
Proof.
  intros Hx H. destruct H as [H|H].
  - left. rewrite <- (ln_exp a). now apply ln_increasing.
  - right. rewrite H. apply ln_exp.
Qed.

Lemma ln_ge_by_exp (x a : R) : exp a <= x -> a <= ln x.
Proof.
  intros H. destruct H as [H|H].
  - left. rewrite <- (ln_exp a) at 1. apply ln_increasing; [apply exp_pos | assumption].
  - right. rewrite <- H. symmetry. apply ln_exp.
Qed.

(** [x ^ 1.7] against a rational [c], by integer powers. *)
Lemma Rpower_17_10 (x : R) : 0 < x -> Rpower x 1.7 = Rpower (x ^ 17) (/ 10).
Proof.
  intros Hx. rewrite <- Rpower_pow by assumption.
  rewrite Rpower_mult. f_equal. cbn. lra.
Qed.

Lemma Rpower_10_inv (c : R) : 0 < c -> c = Rpower (c ^ 10) (/ 10).
Proof.
  intros Hc. rewrite <- Rpower_pow by assumption.
  rewrite Rpower_mult. replace (INR 10 * / 10) with 1 by (cbn; lra).
  symmetry. now apply Rpower_1.
Qed.

Lemma Rpower_17_lt (x c : R) :
  0 < x -> 0 < c -> x ^ 17 < c ^ 10 -> Rpower x 1.7 < c.
Proof.
  intros Hx Hc H. rewrite Rpower_17_10 by assumption.
  rewrite (Rpower_10_inv Hc) at 1.
  apply Rlt_Rpower_l; [lra|]. split; [now apply pow_lt | assumption].
Qed.

Lemma Rpower_17_ge (x c : R) :
  0 < x -> 0 < c -> c ^ 10 <= x ^ 17 -> c <= Rpower x 1.7.
Proof.
  intros Hx Hc H. rewrite Rpower_17_10 by assumption.
  rewrite (Rpower_10_inv Hc) at 1.
  apply Rle_Rpower_l; [lra|]. split; [now apply pow_lt | assumption].
Qed.

Lemma exp_03_upper : exp 0.3 <= 1.3505.
Proof. apply (@exp_le_by_poly 0.3 1.3505 1); [lra | lra |]. cbn. lra. Qed.

Lemma ln_e1_bounds : 1.3 <= ln (exp 1 + 1) <= 1.3135.
Proof.
  assert (Hl := exp_1_lower). assert (Hu := exp_1_upper).
  split.
  - apply ln_ge_by_exp.
    replace 1.3 with (1 + 0.3) by lra. rewrite exp_plus.
    assert (H3 := exp_03_upper). assert (P3 := exp_pos 0.3).
    apply Rle_trans with (2.718282 * 1.3505); [|lra].
    apply Rmult_le_compat; lra.
  - apply ln_le_by_exp; [lra|].
    apply Rle_trans with 3.718282; [lra|].
    apply (@exp_ge_by_poly 1.3135 3.718282 7); [lra|]. cbn. lra.
Qed.

Lemma ln_2_bounds : 0.67 <= ln 2 <= 0.73.
Proof.
  split.
  - apply ln_ge_by_exp.
    apply (@exp_le_by_poly 0.67 2 1); [lra | lra |]. cbn. lra.
  - apply ln_le_by_exp; [lra|].
    apply (@exp_ge_by_poly 0.73 2 3); [lra|]. cbn. lra.
Qed.

Lemma ln_39_lower : 3.655 <= ln 39.
Proof.
  apply ln_ge_by_exp.
  replace 3.655 with (INR 3 + 0.655) by (cbn; lra).
  rewrite exp_plus, exp_nat.
  assert (Hu := exp_1_upper). assert (P1 := exp_pos 1).
  assert (H3 : exp 1 ^ 3 <= 2.718282 ^ 3) by (apply pow_incr; lra).
  assert (H6 : exp 0.655 <= 1.926).
  { apply (@exp_le_by_poly 0.655 1.926 2); [lra | lra |]. cbn. lra. }
  assert (P6 := exp_pos 0.655).
  assert (P3 : 0 < exp 1 ^ 3) by now apply pow_lt.
  apply Rle_trans with (2.718282 ^ 3 * 1.926); [|cbn; lra].
  apply Rmult_le_compat; lra.
Qed.

(** Where a raw value is rounded to. *)
Lemma Math_round_eq (x : R) (k : Z) :
  IZR k - / 2 <= x < IZR k + / 2 -> Math_round x = k.
Proof. intros H. unfold Math_round. apply Zfloor_eq. lra. Qed.

Lemma raw_bounds (p lo hi a b : R) :
  0 < p -> 0 < lo -> lo <= ln (p + 1) <= hi ->
  0 < a -> 0 < b -> a ^ 10 <= lo ^ 17 -> hi ^ 17 < b ^ 10 ->
  a * 11 <= Spec.raw p < b * 11.
Proof.
  intros Hp Hlo [Hl Hh] Ha Hb Hal Hhb. unfold Spec.raw.
  assert (Hx : 0 < ln (p + 1)) by lra.
  assert (H1 : a <= Rpower (ln (p + 1)) 1.7).
  { apply Rpower_17_ge; try assumption.
    apply Rle_trans with (1 := Hal). apply pow_incr. lra. }
  assert (H2 : Rpower (ln (p + 1)) 1.7 < b).
  { apply Rpower_17_lt; try assumption.
    apply Rle_lt_trans with (2 := Hhb). apply pow_incr. lra. }
  lra.
Qed.

Lemma weirdness_e : weirdness (exp 1) = 17%Z.
Proof.
  assert (P1 := exp_pos 1).
  rewrite weirdness_raw by assumption.
  rewrite (@Math_round_eq _ 17); [reflexivity|].
  assert (H := @raw_bounds (exp 1) 1.3 1.3135 1.5 (35 / 22) P1).
  lapply H; [clear H; intros H | lra].
  specialize (H ln_e1_bounds).
  lapply H; [clear H; intros H | lra].
  lapply H; [clear H; intros H | lra].
  lapply H; [clear H; intros H | cbn; lra].
  lapply H; [clear H; intros H | cbn; lra].
  lra.
Qed.

Lemma weirdness_1 : weirdness 1 = 6%Z.
Proof.
  rewrite weirdness_raw by lra.
  rewrite (@Math_round_eq _ 6); [reflexivity|].
  assert (H := @raw_bounds 1 0.67 0.73 0.5 (13 / 22)).
  lapply H; [clear H; intros H | lra].
  lapply H; [clear H; intros H | lra].
  lapply H; [clear H; intros H | exact ln_2_bounds].
  lapply H; [clear H; intros H | lra].
  lapply H; [clear H; intros H | lra].
  lapply H; [clear H; intros H | cbn; lra].
  lapply H; [clear H; intros H | cbn; lra].
  lra.
Qed.

Lemma weirdness_saturates (p : R) : 38 <= p -> weirdness p = 100%Z.
Proof.
  intros Hp. rewrite weirdness_raw by lra.
  assert (H39 := ln_39_lower).
  assert (Hln : 3.655 <= ln (p + 1)).
  { apply Rle_trans with (1 := H39).
    destruct Hp as [Hp|Hp].
    - left. apply ln_increasing; lra.
    - right. f_equal. lra. }
  assert (Hraw : 9.05 <= Rpower (ln (p + 1)) 1.7).
  { apply Rpower_17_ge; [lra | lra |].
    apply Rle_trans with (3.655 ^ 17); [cbn; lra|].
    apply pow_incr. lra. }
  assert (H100 : (100 <= Math_round (Spec.raw p))%Z).
  { unfold Math_round. apply Zfloor_lub. unfold Spec.raw. lra. }
  lia.
Qed.

(** C2. For every positive perplexity the score is an integer between 0
    and 100, and it stays at 100 from perplexity 38 on, however large
    the perplexity. *)
Theorem weirdness_range (p : R) :
  0 < p ->
  (0 <= weirdness p <= 100)%Z
  /\ (38 <= p -> weirdness p = 100%Z).
Proof.
  intros Hp. split.
  - unfold weirdness, Math_min, Math_max. lia.
  - apply weirdness_saturates.
Qed.

Lemma weirdness_range_witness :
  (0 <= weirdness 1000000 <= 100)%Z
  /\ (38 <= 1000000 -> weirdness 1000000 = 100%Z).
Proof. apply weirdness_range. lra. Defined.





(** C8. A token whose log-probability is missing adds 0 to the sum of
    the estimator, while it still counts as a token of the average; and
    the handler does not reject an answer for it: it sends the page of
    the score, without an error message. *)
Theorem missing_logprob_is_zero toFixed w raw (before after : list Token) (t : Token) :
  logprob t = None ->
  trim raw <> [] ->
  provider_returns w (trim raw) (before ++ t :: after) ->
  totalLogProb (before ++ t :: after) = totalLogProb (before ++ after)
  /\ avgLogProb (before ++ t :: after)
     = totalLogProb (before ++ after) / INR (S (length (before ++ after)))
  /\ fst (handle toFixed w (Some raw))
     = Normal (Send {| page_sentence := escapeHtml (trim raw);
                       page_wordCount := wordCount (trim raw);
                       page_weirdness := weirdness (ppl (before ++ t :: after));
                       page_perplexityInfo :=
                         lit "Perplexity " ++ [8776%N] ++ lit " "
                             ++ toFixed (ppl (before ++ t :: after)) 1%nat;
                       page_errorMessage := None |}).
Proof.
  intros Ht Hraw Hret.
  assert (Htotal : totalLogProb (before ++ t :: after)
                   = totalLogProb (before ++ after)).
  { rewrite !totalLogProb_sum, !map_app, !sum_app. cbn [map Spec.sum].
    now rewrite Ht. }
  split; [exact Htotal|]. split.
  - unfold avgLogProb, tokenCount. rewrite Htotal. f_equal. f_equal.
    rewrite !length_app. cbn [length]. lia.
  - apply handle_success; try assumption.
    now destruct before.
Qed.

Lemma missing_logprob_is_zero_witness :
  totalLogProb ([tok (-1)] ++ tok_missing :: [tok (-2)])
  = totalLogProb ([tok (-1)] ++ [tok (-2)])
  /\ avgLogProb ([tok (-1)] ++ tok_missing :: [tok (-2)])
     = totalLogProb ([tok (-1)] ++ [tok (-2)])
       / INR (S (length ([tok (-1)] ++ [tok (-2)])))
  /\ fst (handle plain_toFixed
            (world_with (Some (lit "hf_x"))
               (Normal (json_response
                          ([tok (-1)] ++ tok_missing :: [tok (-2)]))))
            (Some (lit "time flies")))
     = Normal (Send {| page_sentence := escapeHtml (trim (lit "time flies"));
                       page_wordCount := wordCount (trim (lit "time flies"));
                       page_weirdness :=
                         weirdness (ppl ([tok (-1)] ++ tok_missing :: [tok (-2)]));
                       page_perplexityInfo :=
                         lit "Perplexity " ++ [8776%N] ++ lit " "
                             ++ plain_toFixed
                                  (ppl ([tok (-1)] ++ tok_missing :: [tok (-2)]))
                                  1%nat;
                       page_errorMessage := None |}).
Proof.
  apply missing_logprob_is_zero.
  - reflexivity.
  - discriminate.
  - split; [reflexivity|]. eexists. repeat split.
Defined.

Lemma avgLogProb_A : avgLogProb [tok (-1); tok (-1); tok (-1)] = -1.
Proof.
  unfold avgLogProb, totalLogProb, tokenCount, reduce. cbn. lra.
Qed.

Lemma avgLogProb_B : avgLogProb [tok 0] = 0.
Proof.
  unfold avgLogProb, totalLogProb, tokenCount, reduce. cbn. lra.
Qed.

Lemma avgLogProb_C : avgLogProb [tok (-10)] = -10.
Proof.
  unfold avgLogProb, totalLogProb, tokenCount, reduce. cbn. lra.
Qed.

Lemma ppl_of_avg (tokens : list Token) (a : R) :
  avgLogProb tokens = a -> ppl tokens = exp (- a).
Proof. intros H. unfold ppl, Math_exp. now rewrite H. Qed.

Lemma ppl_A : ppl [tok (-1); tok (-1); tok (-1)] = exp 1.
Proof. rewrite (ppl_of_avg avgLogProb_A). f_equal. lra. Qed.

Lemma ppl_B : ppl [tok 0] = 1.
Proof. rewrite (ppl_of_avg avgLogProb_B). rewrite Ropp_0. apply exp_0. Qed.

(** The first scenario through the whole handler. *)
Example handle_scenario_A :
  fst (handle plain_toFixed
         (world_with (Some (lit "hf_x"))
            (Normal (json_response [tok (-1); tok (-1); tok (-1)])))
         (Some (lit " the cat  sat ")))
  = Normal (Send {| page_sentence := lit "the cat  sat";
                    page_wordCount := 3;
                    page_weirdness := 17;
                    page_perplexityInfo := lit "Perplexity " ++ [8776%N; 32%N];
                    page_errorMessage := None |}).
Proof.
  rewrite (@handle_success _ _ _ [tok (-1); tok (-1); tok (-1)]).
  - rewrite ppl_A, weirdness_e. reflexivity.
  - discriminate.
  - split; [reflexivity|]. eexists. repeat split.
  - discriminate.
Qed.

Lemma ppl_avg_minus_10 (tokens : list Token) :
  avgLogProb tokens = -10 ->
  22026 < ppl tokens < 22027 /\ weirdness (ppl tokens) = 100%Z.
Proof.
  intros H. rewrite (ppl_of_avg H).
  replace (- -10) with 10 by lra.
  assert (Hb := exp_10_bounds). split; [exact Hb|].
  apply weirdness_saturates. lra.
Qed.

(** C7. The scenarios of the specification, through the estimator and
    the scorer: log-probabilities [-1, -1, -1] average to -1, give a
    perplexity within 0.00001 of 2.71828 and the score 17; [0] gives the
    perplexity 1 and the score 6; [-10], and any sequence that averages
    to -10, gives a perplexity between 22026 and 22027 and the score
    100. *)
Theorem scenarios :
  (avgLogProb [tok (-1); tok (-1); tok (-1)] = -1
   /\ 2.71827 < ppl [tok (-1); tok (-1); tok (-1)] < 2.71829
   /\ weirdness (ppl [tok (-1); tok (-1); tok (-1)]) = 17%Z)
  /\ (avgLogProb [tok 0] = 0
      /\ ppl [tok 0] = 1
      /\ weirdness (ppl [tok 0]) = 6%Z)
  /\ (22026 < ppl [tok (-10)] < 22027
      /\ weirdness (ppl [tok (-10)]) = 100%Z)
  /\ (forall tokens,
        avgLogProb tokens = -10 ->
        22026 < ppl tokens < 22027 /\ weirdness (ppl tokens) = 100%Z).
Proof.
  assert (HA := ppl_A). assert (HB := ppl_B).
  repeat split.
  - exact avgLogProb_A.
  - rewrite HA. generalize exp_1_lower. lra.
  - rewrite HA. generalize exp_1_upper. lra.
  - rewrite HA. exact weirdness_e.
  - exact avgLogProb_B.
  - exact HB.
  - rewrite HB. exact weirdness_1.
  - apply (ppl_avg_minus_10 avgLogProb_C).
  - apply (ppl_avg_minus_10 avgLogProb_C).
  - apply (ppl_avg_minus_10 avgLogProb_C).
  - now apply ppl_avg_minus_10.
  - now apply ppl_avg_minus_10.
  - now apply ppl_avg_minus_10.
Qed.

Lemma scenarios_witness :
  22026 < ppl [tok (-5); tok_missing; tok (-25)] < 22027
  /\ weirdness (ppl [tok (-5); tok_missing; tok (-25)]) = 100%Z.
Proof.
  apply scenarios.
  unfold avgLogProb, totalLogProb, tokenCount, reduce. cbn. lra.
Defined.

(** C6. The word count of the handler, taken on the trimmed sentence, is
    the number of non-empty fragments that splitting the trimmed
    sentence on runs of white space gives; it is the number of words of
    the sentence (its maximal runs of non-white-space characters),
    whatever white space surrounds or separates them: the sentence
    "  hello   world  " has 2 words. *)
Theorem wordCount_is_word_count :
  (forall raw, wordCount (trim raw) = Spec.word_count raw)
  /\ (forall raw, wordCount (trim raw) = Spec.count_words raw)
  /\ wordCount (trim (lit "  hello   world  ")) = 2%nat.
Proof.
  split; [|split].
  - exact wordCount_word_count.
  - intros raw. rewrite wordCount_count_words. apply count_words_trim.
  - reflexivity.
Qed.

(** C10. [escapeHtml] replaces each of the five characters [&], [<],
    [>], ["] and ['] of its input by the HTML entity and keeps every
    other character; its output holds none of the raw characters [<],
    [>], ["] and [']. *)
Theorem escapeHtml_no_raw_markup (s : jsstring) :
  escapeHtml s = flat_map Spec.entity s
  /\ ~ In 60%N (escapeHtml s)
  /\ ~ In 62%N (escapeHtml s)
  /\ ~ In 34%N (escapeHtml s)
  /\ ~ In 39%N (escapeHtml s).
Proof.
  split; [apply escapeHtml_flat_map|].
  rewrite escapeHtml_flat_map.
  repeat split; intros H; apply in_flat_map in H as [x [_ Hx]];
    apply entity_no_raw in Hx; intuition congruence.
Qed.

(** * Further properties of the code *)

Local Close Scope R_scope.

(** ** [escapeHtml], continued *)

Lemma entity_plain (c : code_unit) :
  is_special c = false -> Spec.entity c = [c].
Proof.
  unfold is_special, Spec.entity. split_entity c; cbn; try discriminate.
  reflexivity.
Qed.

Lemma entity_special (c : code_unit) :
  is_special c = true ->
  exists tail, Spec.entity c = 38%N :: tail /\ (3 <= length tail <= 5)%nat.
Proof.
  unfold is_special, Spec.entity. split_entity c; cbn; try discriminate;
    intros _; eexists; (split; [reflexivity | cbn; lia]).
Qed.

(** No entity is the start of another piece of output: the output can be
    read back character by character. *)
Lemma entity_prefix_free (x y : code_unit) (r1 r2 : jsstring) :
  Spec.entity x ++ r1 = Spec.entity y ++ r2 -> x = y /\ r1 = r2.
Proof.
  unfold Spec.entity.
  split_entity x; split_entity y; cbn; intros H;
    try (injection H; intros; subst; try congruence; now split);
    try discriminate.
Qed.

(** X11. [escapeHtml] goes through concatenation: escaping two strings
    put together is putting together their escapes. *)
Theorem escapeHtml_app (a b : jsstring) :
  escapeHtml (a ++ b) = escapeHtml a ++ escapeHtml b.
Proof. rewrite !escapeHtml_flat_map. apply flat_map_app. Qed.

Lemma escapeHtml_cons (c : code_unit) (s : jsstring) :
  escapeHtml (c :: s) = Spec.entity c ++ escapeHtml s.
Proof. now rewrite !escapeHtml_flat_map. Qed.

(** X10. [escapeHtml] is injective: two different sentences never give
    the same escaped text, so the escaped text can be read back. *)
Theorem escapeHtml_inj (s1 s2 : jsstring) :
  escapeHtml s1 = escapeHtml s2 -> s1 = s2.
Proof.
  revert s2. induction s1 as [|x s1 IH]; intros [|y s2] H.
  - reflexivity.
  - rewrite escapeHtml_cons in H. exfalso.
    destruct (is_special y) eqn:Hy.
    + destruct (entity_special y Hy) as [t [Ht _]]. rewrite Ht in H. discriminate.
    + rewrite (entity_plain y Hy) in H. discriminate.
  - rewrite escapeHtml_cons in H. exfalso.
    destruct (is_special x) eqn:Hx.
    + destruct (entity_special x Hx) as [t [Ht _]]. rewrite Ht in H. discriminate.
    + rewrite (entity_plain x Hx) in H. discriminate.
  - rewrite !escapeHtml_cons in H.
    apply entity_prefix_free in H as [-> H]. f_equal. now apply IH.
Qed.

Lemma escapeHtml_inj_witness : lit "a<b" = [97%N; 60%N; 98%N].
Proof. apply escapeHtml_inj. reflexivity. Defined.

(** X14. The escaped text is at least as long as the input and at most
    six times as long. *)
Theorem escapeHtml_length (s : jsstring) :
  (length s <= length (escapeHtml s) <= 6 * length s)%nat.
Proof.
  induction s as [|c s IH]; [cbn; lia|].
  rewrite escapeHtml_cons, length_app. cbn [length].
  destruct (is_special c) eqn:Hc.
  - destruct (entity_special c Hc) as [t [Ht Hlen]]. rewrite Ht. cbn [length].
    unfold jsstring, code_unit in *. lia.
  - rewrite (entity_plain c Hc). cbn [length].
    unfold jsstring, code_unit in *. lia.
Qed.

Lemma escapeHtml_plain (s : jsstring) :
  existsb is_special s = false -> escapeHtml s = s.
Proof.
  induction s as [|c s IH]; intros H; [reflexivity|].
  cbn [existsb] in H. apply orb_false_elim in H as [Hc Hs].
  rewrite escapeHtml_cons, (entity_plain c Hc), IH by assumption. reflexivity.
Qed.

Lemma escapeHtml_length_ge (s : jsstring) :
  (length s <= length (escapeHtml s))%nat.
Proof.
  induction s as [|c s IH]; [cbn; lia|].
  rewrite escapeHtml_cons, length_app. cbn [length].
  destruct (is_special c) eqn:Hc.
  - destruct (entity_special c Hc) as [t [Ht _]]. rewrite Ht. cbn [length].
    unfold jsstring, code_unit in *. lia.
  - rewrite (entity_plain c Hc). cbn [length].
    unfold jsstring, code_unit in *. lia.
Qed.

Lemma escapeHtml_grows (s : jsstring) :
  existsb is_special s = true ->
  (length s < length (escapeHtml s))%nat /\ In 38%N (escapeHtml s).
Proof.
  induction s as [|c s IH]; intros H; [discriminate|].
  rewrite escapeHtml_cons, length_app. cbn [length].
  assert (Hlen := escapeHtml_length_ge s).
  destruct (is_special c) eqn:Hc.
  - destruct (entity_special c Hc) as [t [Ht Ht3]]. rewrite Ht. cbn [length].
    split; [unfold jsstring, code_unit in *; lia|]. now left.
  - cbn [existsb] in H. rewrite Hc in H. cbn [orb] in H.
    destruct (IH H) as [IHlen IHin].
    rewrite (entity_plain c Hc). cbn [length].
    split; [unfold jsstring, code_unit in *; lia|].
    right. exact IHin.
Qed.

(** X12. [escapeHtml] returns its input unchanged exactly when the input
    holds none of the five characters it rewrites: the ampersand, the
    two angle brackets and the two quotes. *)
Theorem escapeHtml_fixed_point (s : jsstring) :
  escapeHtml s = s <-> existsb is_special s = false.
Proof.
  split; [|apply escapeHtml_plain].
  intros H. destruct (existsb is_special s) eqn:Hs; [|reflexivity].
  destruct (escapeHtml_grows s Hs) as [Hlen _]. rewrite H in Hlen. lia.
Qed.

(** X13. Escaping twice is escaping once only for an input without any
    of the five characters: every other input is escaped further, its
    [&] of the first pass becoming [&amp;]. *)
Theorem escapeHtml_twice (s : jsstring) :
  escapeHtml (escapeHtml s) = escapeHtml s <-> existsb is_special s = false.
Proof.
  split.
  - intros H. destruct (existsb is_special s) eqn:Hs; [|reflexivity].
    destruct (escapeHtml_grows s Hs) as [_ Hin].
    assert (Hsp : existsb is_special (escapeHtml s) = true).
    { apply existsb_exists. exists 38%N. split; [assumption | reflexivity]. }
    destruct (escapeHtml_grows _ Hsp) as [Hlen _]. rewrite H in Hlen. lia.
  - intros H. now rewrite !(escapeHtml_plain s H).
Qed.

(** ** Trimming, splitting and counting, continued *)

(** *** What [trim] leaves *)

Lemma trimStart_starts (s : jsstring) :
  trimStart s = [] \/ starts_in_word (trimStart s) = true.
Proof.
  induction s as [|c s IH]; [now left|].
  cbn [trimStart]. destruct (is_space c) eqn:Hc; [exact IH|].
  right. cbn. now rewrite Hc.
Qed.

Lemma trimStart_nil (s : jsstring) :
  trimStart s = [] <-> forallb is_space s = true.
Proof.
  induction s as [|c s IH]; [easy|].
  cbn [trimStart forallb]. destruct (is_space c); cbn [andb]; [exact IH|].
  split; discriminate.
Qed.

Lemma trimStart_app_word (x y : jsstring) (c : code_unit) :
  is_space c = false -> trimStart (x ++ c :: y) = trimStart x ++ c :: y.
Proof.
  intros Hc. induction x as [|a x IH]; cbn [app trimStart].
  - now rewrite Hc.
  - destruct (is_space a); [exact IH | reflexivity].
Qed.

Lemma ends_in_word_last (s : jsstring) (c : code_unit) :
  ends_in_word (s ++ [c]) = negb (is_space c).
Proof.
  induction s as [|a s IH]; [reflexivity|].
  cbn [app ends_in_word]. destruct (s ++ [c]) eqn:E; [|exact IH].
  now destruct s.
Qed.

Lemma trimEnd_ends (s : jsstring) :
  trimEnd s = [] \/ ends_in_word (trimEnd s) = true.
Proof.
  unfold trimEnd. destruct (trimStart_starts (rev s)) as [H|H].
  - left. now rewrite H.
  - right. destruct (trimStart (rev s)) as [|c t]; [discriminate|].
    cbn [rev]. rewrite ends_in_word_last. exact H.
Qed.

Lemma trimEnd_word_cons (c : code_unit) (s : jsstring) :
  is_space c = false -> trimEnd (c :: s) = c :: trimEnd s.
Proof.
  intros Hc. unfold trimEnd. cbn [rev].
  replace (rev s ++ [c]) with (rev s ++ c :: []) by reflexivity.
  rewrite trimStart_app_word by assumption.
  rewrite rev_app_distr. reflexivity.
Qed.

(** The trimmed sentence is empty, or it starts and ends in a word. *)
Lemma trim_shape (s : jsstring) :
  trim s = []
  \/ (starts_in_word (trim s) = true /\ ends_in_word (trim s) = true).
Proof.
  unfold trim. destruct (trimStart_starts s) as [H|H].
  - left. now rewrite H.
  - right. destruct (trimStart s) as [|c t]; [discriminate|].
    cbn in H. apply negb_true_iff in H.
    destruct (trimEnd_ends (c :: t)) as [E|E].
    + rewrite trimEnd_word_cons in E by assumption. discriminate.
    + split; [|exact E]. rewrite trimEnd_word_cons by assumption.
      cbn. now rewrite H.
Qed.

Lemma trim_nil (s : jsstring) :
  trim s = [] <-> forallb is_space s = true.
Proof.
  unfold trim. split.
  - intros H. apply trimStart_nil.
    destruct (trimStart_starts s) as [E|E]; [exact E|].
    destruct (trimStart s) as [|c t]; [reflexivity|].
    cbn in E. apply negb_true_iff in E.
    rewrite trimEnd_word_cons in H by assumption. discriminate.
  - intros H. apply trimStart_nil in H. now rewrite H.
Qed.

(** *** The pieces of the split *)

Lemma split_scan_pieces (s : jsstring) :
  (ends_in_word s = true ->
   forallb Boolean_str (split_scan true [] s) = true)
  /\ (forall cur, cur <> [] -> s = [] \/ ends_in_word s = true ->
      forallb Boolean_str (split_scan false cur s) = true).
Proof.
  induction s as [|a s [IHsep IHword]].
  - split; [discriminate|].
    intros [|c cur] Hcur _; [congruence|].
    cbn [split_scan forallb]. now rewrite Boolean_str_rev_cons.
  - assert (Htail : ends_in_word (a :: s) = true ->
                    is_space a = true -> ends_in_word s = true).
    { cbn [ends_in_word]. destruct s; [|easy].
      intros H Ha. rewrite Ha in H. discriminate. }
    assert (Htail' : ends_in_word (a :: s) = true ->
                     s = [] \/ ends_in_word s = true).
    { cbn [ends_in_word]. destruct s; [now left | now right]. }
    split.
    + intros Hend. cbn [split_scan]. destruct (is_space a) eqn:Ha.
      * apply IHsep. now apply Htail.
      * apply IHword; [discriminate | now apply Htail'].
    + intros cur Hcur [Hs|Hend]; [discriminate|].
      cbn [split_scan]. destruct (is_space a) eqn:Ha.
      * cbn [forallb]. destruct cur as [|c cur]; [congruence|].
        rewrite Boolean_str_rev_cons. cbn [andb].
        apply IHsep. now apply Htail.
      * apply IHword; [discriminate | now apply Htail'].
Qed.

(** On a trimmed, non-empty sentence the split has no empty piece. *)
Lemma split_trim_pieces (raw : jsstring) :
  trim raw <> [] -> forallb Boolean_str (split_spaces (trim raw)) = true.
Proof.
  intros Hne. destruct (trim_shape raw) as [H|[Hs He]]; [congruence|].
  destruct (trim raw) as [|c t]; [congruence|].
  cbn in Hs. apply negb_true_iff in Hs.
  unfold split_spaces. cbn [split_scan]. rewrite Hs.
  apply (proj2 (split_scan_pieces t)); [discriminate|].
  cbn [ends_in_word] in He. destruct t; [now left | now right].
Qed.

Lemma filter_all {A} (f : A -> bool) (l : list A) :
  forallb f l = true -> filter f l = l.
Proof.
  induction l as [|a l IH]; [reflexivity|].
  cbn [forallb filter]. intros H. apply andb_prop in H as [Ha Hl].
  rewrite Ha. f_equal. now apply IH.
Qed.

Lemma split_scan_length (s cur : jsstring) (in_sep : bool) :
  (1 <= length (split_scan in_sep cur s))%nat.
Proof.
  revert cur in_sep. induction s as [|a s IH]; intros cur in_sep.
  - cbn. lia.
  - cbn [split_scan]. destruct (is_space a); [destruct in_sep|];
      try apply IH. cbn [length]. lia.
Qed.

(** X6. On the trimmed, non-empty sentence the handler scores, the
    split has no empty piece: [filter(Boolean)] removes nothing, the
    word count is the number of pieces, and it is at least 1. *)
Theorem wordCount_trimmed (raw : jsstring) :
  trim raw <> [] ->
  filter Boolean_str (split_spaces (trim raw)) = split_spaces (trim raw)
  /\ wordCount (trim raw) = length (split_spaces (trim raw))
  /\ (1 <= wordCount (trim raw))%nat.
Proof.
  intros Hne.
  assert (H := filter_all _ _ (split_trim_pieces raw Hne)).
  split; [exact H|]. unfold wordCount. rewrite H. split; [reflexivity|].
  apply split_scan_length.
Qed.

Lemma wordCount_trimmed_witness :
  filter Boolean_str (split_spaces (trim (lit "  hello   world  ")))
  = split_spaces (trim (lit "  hello   world  "))
  /\ wordCount (trim (lit "  hello   world  "))
     = length (split_spaces (trim (lit "  hello   world  ")))
  /\ (1 <= wordCount (trim (lit "  hello   world  ")))%nat.
Proof. apply wordCount_trimmed. discriminate. Defined.

(** Splitting loses white space only. *)
Lemma split_scan_concat (s cur : jsstring) (in_sep : bool) :
  concat (split_scan in_sep cur s)
  = rev cur ++ filter (fun c => negb (is_space c)) s.
Proof.
  revert cur in_sep. induction s as [|a s IH]; intros cur in_sep.
  - cbn. now rewrite !app_nil_r.
  - cbn [split_scan filter]. destruct (is_space a); cbn [negb].
    + destruct in_sep.
      * apply IH.
      * cbn [concat]. rewrite IH. reflexivity.
    + rewrite IH. cbn [rev]. now rewrite <- app_assoc.
Qed.

Lemma split_scan_no_space (s cur : jsstring) (in_sep : bool) :
  forallb (fun c => negb (is_space c)) cur = true ->
  forallb (forallb (fun c => negb (is_space c))) (split_scan in_sep cur s) = true.
Proof.
  revert cur in_sep. induction s as [|a s IH]; intros cur in_sep Hcur.
  - cbn [split_scan forallb]. rewrite andb_true_r.
    rewrite forallb_forall in *. intros x Hx. apply Hcur. now apply in_rev.
  - cbn [split_scan]. destruct (is_space a) eqn:Ha.
    + destruct in_sep; [now apply IH|].
      cbn [forallb]. rewrite IH by reflexivity. rewrite andb_true_r.
      rewrite forallb_forall in *. intros x Hx. apply Hcur. now apply in_rev.
    + apply IH. cbn [forallb]. now rewrite Ha, Hcur.
Qed.

(** X7. Splitting loses white space only: the pieces put together are
    the sentence without its white space, and no piece holds any white
    space. *)
Theorem split_spaces_keeps_words (s : jsstring) :
  concat (split_spaces s) = filter (fun c => negb (is_space c)) s
  /\ forallb (forallb (fun c => negb (is_space c))) (split_spaces s) = true.
Proof.
  split.
  - unfold split_spaces. now rewrite split_scan_concat.
  - now apply split_scan_no_space.
Qed.

(** Word counts add up across white space. *)
Lemma word_starts_app (a b : jsstring) (sp : code_unit) (flag : bool) :
  is_space sp = true ->
  Spec.word_starts flag (a ++ sp :: b)
  = (Spec.word_starts flag a + Spec.word_starts true b)%nat.
Proof.
  intros Hsp. revert flag. induction a as [|c a IH]; intros flag.
  - cbn [app Spec.word_starts]. now rewrite Hsp.
  - cbn [app Spec.word_starts]. destruct (is_space c); rewrite IH; lia.
Qed.

(** X8. Word counts add up: two sentences joined by a white-space
    character have the sum of their word counts. *)
Theorem wordCount_app (a b : jsstring) (sp : code_unit) :
  is_space sp = true ->
  wordCount (a ++ sp :: b) = (wordCount a + wordCount b)%nat.
Proof.
  intros Hsp. rewrite !wordCount_count_words. unfold Spec.count_words.
  now apply word_starts_app.
Qed.

Lemma wordCount_app_witness :
  wordCount (lit "so it" ++ 10%N :: lit "goes")
  = (wordCount (lit "so it") + wordCount (lit "goes"))%nat.
Proof. apply wordCount_app. reflexivity. Defined.

Lemma word_starts_bound (s : jsstring) (flag : bool) :
  (2 * Spec.word_starts flag s <= length s + (if flag then 1 else 0))%nat.
Proof.
  revert flag. induction s as [|c s IH]; intros flag.
  - cbn. destruct flag; lia.
  - cbn [Spec.word_starts length]. destruct (is_space c).
    + specialize (IH true). cbn in IH. destruct flag; lia.
    + specialize (IH false). cbn in IH. destruct flag; lia.
Qed.

(** X9. A sentence of [n] characters has at most [(n + 1) / 2] words. *)
Theorem wordCount_bound (s : jsstring) :
  (2 * wordCount s <= length s + 1)%nat.
Proof.
  rewrite wordCount_count_words. exact (word_starts_bound s true).
Qed.

(** ** The handler, continued *)

(** The provider is called by the [try] block at most once, and only
    with a credential. *)
Lemma try_block_trace toFixed w sentence s :
  trace (snd (try_block toFixed w sentence s))
  = trace s ++
    (if not_str (HF_TOKEN w) then []
     else [Fetch model_url (lit "Bearer " ++ template_str (HF_TOKEN w)) sentence]).
Proof.
  run_try. cbv beta iota zeta delta [negb locals trace].
  destruct (not_str (HF_TOKEN w)); [cbn; now rewrite app_nil_r|].
  destruct (fetch w _ _ sentence) as [r|e1]; [|reflexivity].
  destruct (ok r).
  - destruct (json_body r) as [data|e2]; [|reflexivity].
    destruct (not_length (prefill_length data)); [reflexivity|].
    destruct (data_details_prefill data); reflexivity.
  - destruct (text_body r); reflexivity.
Qed.

(** A normal end of the [try] block means the provider returned tokens. *)
Lemma try_block_normal toFixed w sentence s s' :
  try_block toFixed w sentence s = (Normal tt, s') ->
  exists tokens, tokens <> [] /\ provider_returns w sentence tokens.
Proof.
  run_try. cbv beta iota zeta delta [negb]. unfold provider_returns.
  destruct (not_str (HF_TOKEN w)) eqn:Htok; [discriminate|].
  destruct (fetch w _ _ sentence) as [r|e1] eqn:Hr; [|discriminate].
  destruct (ok r) eqn:Hok.
  - destruct (json_body r) as [data|e2] eqn:Hj; [|discriminate].
    destruct data as [[[[[tokens|]]|]]|]; cbn; try discriminate.
    destruct tokens as [|t tokens]; cbn; [discriminate|].
    intros _. exists (t :: tokens). split; [discriminate|].
    split; [reflexivity|]. exists r. now rewrite Hj.
  - destruct (text_body r); discriminate.
Qed.

(** X1. The handler redirects to [/] exactly when the sentence of the
    form is absent or made of white space only, and then it does nothing
    else: no provider call, nothing logged. *)
Theorem redirect_iff_blank toFixed w body :
  (fst (handle toFixed w body) = Normal (Redirect (lit "/"))
   <-> forallb is_space (sentence_of body) = true)
  /\ (forallb is_space (sentence_of body) = true ->
      trace (snd (handle toFixed w body)) = []).
Proof.
  unfold sentence_of. split; [split|].
  - intros H. apply trim_nil.
    destruct (trim _) eqn:Ht; [reflexivity|]. exfalso.
    destruct body as [raw|]; [|discriminate].
    rewrite handle_send in H by congruence.
    destruct (try_block _ _ _ _) as [[[]|e] s']; discriminate.
  - intros H. apply trim_nil in H. now rewrite (handle_redirect toFixed w body H).
  - intros H. apply trim_nil in H. now rewrite (handle_redirect toFixed w body H).
Qed.

Lemma filter_is_fetch_app (l1 l2 : list event) :
  filter is_fetch (l1 ++ l2) = filter is_fetch l1 ++ filter is_fetch l2.
Proof. apply filter_app. Qed.

(** X2. For a non-empty sentence the provider is called once when
    there is a credential and not at all without one; the call goes to
    the model URL with the bearer credential and the trimmed sentence.
    There is no second attempt, whatever the answer. *)
Theorem provider_called_once toFixed w raw :
  trim raw <> [] ->
  filter is_fetch (trace (snd (handle toFixed w (Some raw))))
  = if not_str (HF_TOKEN w) then []
    else [Fetch model_url (lit "Bearer " ++ template_str (HF_TOKEN w)) (trim raw)].
Proof.
  intros Hraw. rewrite handle_send by assumption.
  assert (Ht := try_block_trace toFixed w (trim raw) declared_state).
  destruct (try_block toFixed w (trim raw) declared_state) as [[[]|e] s'];
    cbn [snd trace] in *; rewrite ?filter_app, Ht;
    destruct (not_str (HF_TOKEN w)); reflexivity.
Qed.

Lemma provider_called_once_witness :
  filter is_fetch
    (trace (snd (handle plain_toFixed
                   (world_with (Some (lit "hf_x"))
                               (Normal (json_response [tok (-1)])))
                   (Some (lit " so it goes ")))))
  = if not_str (HF_TOKEN (world_with (Some (lit "hf_x"))
                                     (Normal (json_response [tok (-1)]))))
    then []
    else [Fetch model_url
            (lit "Bearer "
               ++ template_str
                    (HF_TOKEN (world_with (Some (lit "hf_x"))
                                          (Normal (json_response [tok (-1)])))))
            (trim (lit " so it goes "))].
Proof. apply provider_called_once. discriminate. Defined.

(** X3. For a non-empty sentence there are two outcomes only. Either
    the provider returned a non-empty token list: the page is the score
    page of these tokens and nothing is logged. Or it did not, for
    whatever reason (also a body that cannot be read or parsed): the
    page is the page of the fallback and the error is logged. *)
Theorem handle_dichotomy toFixed w raw :
  trim raw <> [] ->
  (exists tokens,
      tokens <> [] /\ provider_returns w (trim raw) tokens
      /\ fst (handle toFixed w (Some raw))
         = Normal (Send (score_page toFixed (trim raw) tokens))
      /\ forall msg, ~ In (ConsoleError msg)
                          (trace (snd (handle toFixed w (Some raw)))))
  \/ ((forall tokens, tokens <> [] -> ~ provider_returns w (trim raw) tokens)
      /\ fst (handle toFixed w (Some raw))
         = Normal (Send (fallback_page (trim raw)))
      /\ exists msg, In (ConsoleError msg)
                        (trace (snd (handle toFixed w (Some raw))))).
Proof.
  intros Hraw.
  assert (Ht := try_block_trace toFixed w (trim raw) declared_state).
  destruct (try_block toFixed w (trim raw) declared_state) as [[[]|e] s'] eqn:Hrun.
  - left. destruct (try_block_normal _ _ _ _ Hrun) as [tokens [Hne Hret]].
    exists tokens. split; [assumption|]. split; [assumption|]. split.
    + now apply handle_success.
    + intros msg. rewrite handle_send, Hrun by assumption.
      cbn [snd] in *. rewrite Ht. cbn [trace declared_state app].
      destruct (not_str (HF_TOKEN w)); cbn; intuition discriminate.
  - right. split; [|split].
    + intros tokens Hne Hret.
      rewrite (success_run toFixed declared_state Hret Hne) in Hrun. discriminate.
    + rewrite handle_send, Hrun by assumption. cbn [fst].
      now rewrite (try_block_thrown_locals _ _ _ _ Hrun).
    + exists (message e). rewrite handle_send, Hrun by assumption.
      cbn [snd trace]. apply in_or_app. right. now left.
Qed.

Lemma handle_dichotomy_witness :
  let w := world_with (Some (lit "hf_x")) (Normal (json_response [tok (-1)])) in
  let raw := lit " so it goes " in
  (exists tokens,
      tokens <> [] /\ provider_returns w (trim raw) tokens
      /\ fst (handle plain_toFixed w (Some raw))
         = Normal (Send (score_page plain_toFixed (trim raw) tokens))
      /\ forall msg, ~ In (ConsoleError msg)
                          (trace (snd (handle plain_toFixed w (Some raw)))))
  \/ ((forall tokens, tokens <> [] -> ~ provider_returns w (trim raw) tokens)
      /\ fst (handle plain_toFixed w (Some raw))
         = Normal (Send (fallback_page (trim raw)))
      /\ exists msg, In (ConsoleError msg)
                        (trace (snd (handle plain_toFixed w (Some raw))))).
Proof. intros w raw. apply handle_dichotomy. discriminate. Defined.

(** X4. A non-success status is logged with the status and the text of
    the response, after the one provider call; the page shows the fixed
    message only, and the JSON body is not read. *)
Theorem api_error_is_logged toFixed w raw r errorText :
  trim raw <> [] ->
  not_str (HF_TOKEN w) = false ->
  fetch w model_url (lit "Bearer " ++ template_str (HF_TOKEN w)) (trim raw)
  = Normal r ->
  ok r = false ->
  text_body r = Normal errorText ->
  handle toFixed w (Some raw)
  = (Normal (Send (fallback_page (trim raw))),
     {| locals := {| var_weirdness := 0;
                     var_perplexityInfo := info_error;
                     var_errorMessage := Some msg_unreachable |};
        trace :=
          [Fetch model_url (lit "Bearer " ++ template_str (HF_TOKEN w)) (trim raw);
           ConsoleError (lit "Hugging Face API error: " ++ decimal (status r)
                             ++ lit " - " ++ errorText)] |}).
Proof.
  intros Hraw Htok Hr Hok Htext. rewrite handle_send by assumption.
  run_try. cbv beta iota zeta delta [negb].
  rewrite Htok, Hr, Hok, Htext. reflexivity.
Qed.

Lemma api_error_is_logged_witness :
  handle plain_toFixed
         (world_with (Some (lit "hf_x"))
                     (Normal (error_response 503 (lit "busy"))))
         (Some (lit "so it goes"))
  = (Normal (Send (fallback_page (trim (lit "so it goes")))),
     {| locals := {| var_weirdness := 0;
                     var_perplexityInfo := info_error;
                     var_errorMessage := Some msg_unreachable |};
        trace :=
          [Fetch model_url (lit "Bearer " ++ lit "hf_x") (trim (lit "so it goes"));
           ConsoleError (lit "Hugging Face API error: " ++ decimal 503
                             ++ lit " - " ++ lit "busy")] |}).
Proof.
  apply (@api_error_is_logged plain_toFixed
           (world_with (Some (lit "hf_x"))
                       (Normal (error_response 503 (lit "busy"))))
           (lit "so it goes") (error_response 503 (lit "busy")) (lit "busy"));
    try reflexivity.
  discriminate.
Defined.

(** ** The result page *)

Lemma count_app (c : code_unit) (a b : jsstring) :
  count c (a ++ b) = (count c a + count c b)%nat.
Proof. unfold count. now rewrite filter_app, length_app. Qed.

Lemma count_not_in (c : code_unit) (s : jsstring) :
  ~ In c s -> count c s = O.
Proof.
  unfold count. induction s as [|x s IH]; intros H; [reflexivity|].
  cbn [filter]. destruct (N.eqb_spec c x) as [->|_].
  - exfalso. apply H. now left.
  - apply IH. intros Hin. apply H. now right.
Qed.

Lemma escapeHtml_no_tags (s : jsstring) : no_tags (escapeHtml s).
Proof.
  rewrite escapeHtml_flat_map.
  split; apply count_not_in; intros H; apply in_flat_map in H as [x [_ Hx]];
    apply entity_no_raw in Hx; intuition congruence.
Qed.

Lemma uint_digits (d : Decimal.uint) :
  Forall (fun c => (48 <= c <= 57)%N) (lit (DecimalString.NilEmpty.string_of_uint d)).
Proof.
  induction d; cbn; constructor; try assumption; lia.
Qed.

Lemma decimal_no_tags (n : N) : no_tags (decimal n).
Proof.
  unfold decimal. assert (H := uint_digits (N.to_uint n)).
  rewrite Forall_forall in H.
  split; apply count_not_in; intros Hin; apply H in Hin; lia.
Qed.

(** The tags of the page are those of the template and of the error
    paragraph; the interpolated values bring their own characters only. *)
Lemma result_page_count (c : code_unit) (page : Page) :
  c = 60%N \/ c = 62%N ->
  count c (result_page page)
  = (50 + 2 * count c (page_sentence page)
     + count c (decimal (N.of_nat (page_wordCount page)))
     + 2 * count c (decimal (Z.to_N (page_weirdness page)))
     + count c (page_perplexityInfo page)
     + count c (error_paragraph (page_errorMessage page)))%nat.
Proof.
  unfold result_page.
  generalize (page_sentence page) (decimal (N.of_nat (page_wordCount page)))
             (decimal (Z.to_N (page_weirdness page)))
             (page_perplexityInfo page)
             (error_paragraph (page_errorMessage page)).
  intros s wc wd info err [-> | ->]; rewrite !count_app;
    count_literals;
    change (count 60%N nl) with O; change (count 60%N dq) with O;
    change (count 62%N nl) with O; change (count 62%N dq) with O;
    change (count 60%N [8212%N]) with O; change (count 62%N [8212%N]) with O;
    change (count 60%N [8594%N]) with O; change (count 62%N [8594%N]) with O;
    change (count 60%N [8592%N]) with O; change (count 62%N [8592%N]) with O;
    lia.
Qed.

Lemma no_tags_app (a b : jsstring) : no_tags a -> no_tags b -> no_tags (a ++ b).
Proof.
  unfold no_tags. intros [Ha1 Ha2] [Hb1 Hb2]. rewrite !count_app. lia.
Qed.

Lemma error_paragraph_fixed (c : code_unit) :
  c = 60%N \/ c = 62%N ->
  count c (error_paragraph (Some msg_unreachable)) = 2%nat.
Proof. intros [-> | ->]; reflexivity. Qed.

(** X5. Whatever the sentence, the page sent for it has exactly the [<]
    and [>] of the template, 50 of each, and 2 more of each for the
    error paragraph when there is one, provided [toFixed] prints
    neither: the sentence cannot open or close a tag. *)
Theorem page_tags_fixed toFixed w raw :
  (forall x digits, no_tags (toFixed x digits)) ->
  trim raw <> [] ->
  exists page st,
    handle toFixed w (Some raw) = (Normal (Send page), st)
    /\ count 60%N (result_page page)
       = (match page_errorMessage page with Some _ => 52 | None => 50 end)%nat
    /\ count 62%N (result_page page)
       = (match page_errorMessage page with Some _ => 52 | None => 50 end)%nat.
Proof.
  intros HtoFixed Hraw.
  assert (Hs := escapeHtml_no_tags (trim raw)).
  assert (Hwc := decimal_no_tags (N.of_nat (wordCount (trim raw)))).
  rewrite handle_send by assumption.
  destruct (try_block toFixed w (trim raw) declared_state) as [[[]|e] s'] eqn:Hrun.
  - destruct (try_block_normal _ _ _ _ Hrun) as [tokens [Hne Hret]].
    assert (Hsucc := success_run toFixed declared_state Hret Hne).
    rewrite Hrun in Hsucc. apply (f_equal snd) in Hsucc. cbn [snd] in Hsucc.
    rewrite Hsucc.
    cbn [locals var_weirdness var_perplexityInfo var_errorMessage].
    assert (Hwd := decimal_no_tags (Z.to_N (weirdness (ppl tokens)))).
    set (info := lit "Perplexity " ++ [8776%N] ++ lit " "
                     ++ toFixed (ppl tokens) 1%nat).
    assert (Hinfo : no_tags info).
    { unfold info. repeat apply no_tags_app; try (split; reflexivity).
      apply HtoFixed. }
    clearbody info.
    eexists. eexists. split; [reflexivity|].
    rewrite !result_page_count by auto.
    cbn [page_sentence page_wordCount page_weirdness page_perplexityInfo
         page_errorMessage error_paragraph].
    cbn [declared_state locals var_errorMessage error_paragraph].
    unfold no_tags in *. change (count 60%N []) with O. change (count 62%N []) with O.
    split; lia.
  - rewrite (try_block_thrown_locals _ _ _ _ Hrun).
    cbn [declared_state locals var_weirdness].
    eexists. eexists. split; [reflexivity|].
    rewrite !result_page_count by auto.
    cbn [page_sentence page_wordCount page_weirdness page_perplexityInfo
         page_errorMessage].
    rewrite !error_paragraph_fixed by auto.
    assert (Hwd := decimal_no_tags (Z.to_N 0)).
    assert (Hinfo : no_tags info_error) by (split; reflexivity).
    generalize dependent info_error. intros info Hinfo.
    unfold no_tags in *. split; lia.
Qed.

Lemma page_tags_fixed_witness :
  exists page st,
    handle plain_toFixed
           (world_with (Some (lit "hf_x")) (Normal (json_response [tok (-1)])))
           (Some (lit "<script>alert(1)</script>"))
    = (Normal (Send page), st)
    /\ count 60%N (result_page page)
       = (match page_errorMessage page with Some _ => 52 | None => 50 end)%nat
    /\ count 62%N (result_page page)
       = (match page_errorMessage page with Some _ => 52 | None => 50 end)%nat.
Proof.
  apply page_tags_fixed.
  - intros x digits. split; reflexivity.
  - discriminate.
Defined.

(** ** Estimator and scorer, continued *)

Local Open Scope R_scope.

Lemma tokenCount_pos (tokens : list Token) :
  tokens <> [] -> 0 < tokenCount tokens.
Proof.
  intros H. unfold tokenCount. destruct tokens; [congruence|].
  apply lt_0_INR. cbn [length]. lia.
Qed.

Lemma ppl_pos (tokens : list Token) : 0 < ppl tokens.
Proof. unfold ppl, Math_exp. apply exp_pos. Qed.

Lemma weirdness_le (p1 p2 : R) :
  0 < p1 -> p1 <= p2 -> (weirdness p1 <= weirdness p2)%Z.
Proof.
  intros H1 [H12|<-]; [|lia].
  rewrite !weirdness_raw by lra.
  assert (H := Math_round_le (Rlt_le _ _ (raw_increasing H1 H12))). lia.
Qed.

Lemma exp_le (x y : R) : x <= y -> exp x <= exp y.
Proof.
  intros [H|<-]; [left; now apply exp_increasing | right; reflexivity].
Qed.

Lemma sum_valid (tokens : list Token) :
  valid_logprobs tokens -> Spec.sum (map logprob tokens) <= 0.
Proof.
  induction 1 as [|t tokens Ht _ IH]; cbn [map Spec.sum]; [lra|].
  destruct (logprob t); lra.
Qed.

Lemma ppl_ge_1 (tokens : list Token) :
  tokens <> [] -> totalLogProb tokens <= 0 -> 1 <= ppl tokens.
Proof.
  intros Hne Hsum. unfold ppl, Math_exp, avgLogProb.
  rewrite <- exp_0. apply exp_le.
  assert (Hn := tokenCount_pos Hne).
  assert (H : totalLogProb tokens / tokenCount tokens <= 0).
  { assert (Hi : 0 < / tokenCount tokens) by now apply Rinv_0_lt_compat.
    unfold Rdiv. nra. }
  lra.
Qed.

(** X16. When every log-probability present is at most 0, as that of a
    probability is, the perplexity is at least 1 and the score is
    between 6 and 100: the scores 0 to 5 are never reached. *)
Theorem valid_logprobs_score (tokens : list Token) :
  tokens <> [] -> valid_logprobs tokens ->
  1 <= ppl tokens /\ (6 <= weirdness (ppl tokens) <= 100)%Z.
Proof.
  intros Hne Hv.
  assert (H1 : 1 <= ppl tokens).
  { apply ppl_ge_1; [assumption|]. rewrite totalLogProb_sum. now apply sum_valid. }
  split; [exact H1|]. split.
  - rewrite <- weirdness_1. apply weirdness_le; lra.
  - unfold weirdness, Math_min, Math_max. lia.
Qed.

Lemma valid_logprobs_score_witness :
  1 <= ppl [tok (-1); tok_missing]
  /\ (6 <= weirdness (ppl [tok (-1); tok_missing]) <= 100)%Z.
Proof.
  apply valid_logprobs_score.
  - discriminate.
  - repeat constructor. cbn. lra.
Defined.

Lemma machine_weirdness_le (a : Machine.Arith) (p1 p2 : R) :
  Machine.sound a -> Machine.monotone a ->
  0 <= p1 -> p1 <= p2 ->
  (Machine.weirdness a p1 <= Machine.weirdness a p2)%Z.
Proof.
  intros Ha Hm H1 H12. unfold Machine.weirdness, Math_min, Math_max.
  assert (H : (Math_round
                 (Machine.fl_mul a
                    (Machine.fl_pow a (Machine.fl_log a (Machine.fl_add a p1 1)) 1.7) 11)
               <= Math_round
                    (Machine.fl_mul a
                       (Machine.fl_pow a (Machine.fl_log a (Machine.fl_add a p2 1)) 1.7) 11))%Z).
  { apply Math_round_le.
    apply (Machine.mul_mono Hm); [lra|].
    apply (Machine.pow_mono Hm); [lra | |].
    - apply (Machine.log_nonneg Ha). now apply (Machine.add_one Ha).
    - apply (Machine.log_mono Hm).
      + now apply (Machine.add_one Ha).
      + now apply (Machine.add_mono Hm). }
  lia.
Qed.

(** X17. Of two token lists of the same length, the one whose total, as
    the code adds it up, is the smaller has the perplexity and the score
    at least as high, in any arithmetic whose operations keep the signs
    and do not reverse an order. *)
Theorem score_antitone (a : Machine.Arith) (tokens tokens' : list Token) :
  Machine.sound a -> Machine.monotone a ->
  tokens <> [] ->
  length tokens = length tokens' ->
  Machine.totalLogProb a tokens' <= Machine.totalLogProb a tokens ->
  Machine.ppl a tokens <= Machine.ppl a tokens'
  /\ (Machine.weirdness a (Machine.ppl a tokens)
      <= Machine.weirdness a (Machine.ppl a tokens'))%Z.
Proof.
  intros Ha Hm Hne Hlen Hsum.
  assert (Hn : 0 < tokenCount tokens).
  { unfold tokenCount. destruct tokens; [congruence|].
    apply lt_0_INR. cbn [length]. lia. }
  assert (H : Machine.ppl a tokens <= Machine.ppl a tokens').
  { unfold Machine.ppl, Machine.avgLogProb. apply (Machine.exp_mono Hm).
    replace (tokenCount tokens') with (tokenCount tokens)
      by (unfold tokenCount; now rewrite Hlen).
    generalize (Machine.div_mono Hm Hn Hsum). lra. }
  split; [exact H|].
  apply machine_weirdness_le; try assumption.
  apply (Machine.exp_nonneg Ha).
Qed.

Lemma score_antitone_witness :
  Machine.ppl Machine.rounding [tok (-1)] <= Machine.ppl Machine.rounding [tok (-2)]
  /\ (Machine.weirdness Machine.rounding (Machine.ppl Machine.rounding [tok (-1)])
      <= Machine.weirdness Machine.rounding (Machine.ppl Machine.rounding [tok (-2)]))%Z.
Proof.
  apply score_antitone.
  - exact rounding_sound.
  - exact rounding_monotone.
  - discriminate.
  - reflexivity.
  - unfold Machine.totalLogProb, reduce. cbn. apply to_grid_le. lra.
Defined.

(** X18. For a positive perplexity the rounded value is never negative:
    [Math.max(0, ...)] leaves it as it is, and only the upper clamp can
    act. *)
Theorem lower_clamp_idle (p : R) :
  0 < p ->
  Math_max 0 (Math_round (Math_pow (Math_log (p + 1)) 1.7 * 11))
  = Math_round (Math_pow (Math_log (p + 1)) 1.7 * 11)
  /\ weirdness p = Math_min 100 (Math_round (Math_pow (Math_log (p + 1)) 1.7 * 11)).
Proof.
  intros Hp.
  assert (H : (0 <= Math_round (Math_pow (Math_log (p + 1)) 1.7 * 11))%Z).
  { rewrite scorer_raw by assumption. unfold Math_round.
    apply Zfloor_lub. generalize (raw_pos p). lra. }
  unfold weirdness, Math_max, Math_min. split; lia.
Qed.

Lemma lower_clamp_idle_witness :
  Math_max 0 (Math_round (Math_pow (Math_log (/ 2 + 1)) 1.7 * 11))
  = Math_round (Math_pow (Math_log (/ 2 + 1)) 1.7 * 11)
  /\ weirdness (/ 2)
     = Math_min 100 (Math_round (Math_pow (Math_log (/ 2 + 1)) 1.7 * 11)).
Proof. apply lower_clamp_idle. lra. Defined.

(** X21. Among log-probabilities that sum to at most 0, a token without
    log-probability can only lower the perplexity and the score: it
    counts as a token of probability 1. *)
Theorem missing_logprob_dilutes (before after : list Token) (t : Token) :
  logprob t = None ->
  before ++ after <> [] ->
  totalLogProb (before ++ after) <= 0 ->
  ppl (before ++ t :: after) <= ppl (before ++ after)
  /\ (weirdness (ppl (before ++ t :: after))
      <= weirdness (ppl (before ++ after)))%Z.
Proof.
  intros Ht Hne Hsum. assert (Hn := tokenCount_pos Hne).
  assert (Htot : totalLogProb (before ++ t :: after) = totalLogProb (before ++ after)).
  { rewrite !totalLogProb_sum, !map_app, !sum_app. cbn [map Spec.sum].
    now rewrite Ht. }
  assert (Hcnt : tokenCount (before ++ t :: after) = tokenCount (before ++ after) + 1).
  { unfold tokenCount. rewrite !length_app. cbn [length].
    rewrite Nat.add_succ_r, S_INR, plus_INR. reflexivity. }
  assert (H : ppl (before ++ t :: after) <= ppl (before ++ after)).
  { unfold ppl, Math_exp, avgLogProb. rewrite Htot, Hcnt. apply exp_le.
    set (S := totalLogProb (before ++ after)) in *.
    set (n := tokenCount (before ++ after)) in *.
    assert (H1 : 0 < / n) by now apply Rinv_0_lt_compat.
    assert (H2 : / (n + 1) <= / n) by (apply Rinv_le_contravar; lra).
    unfold Rdiv. nra. }
  split; [exact H|]. apply weirdness_le; [apply ppl_pos | exact H].
Qed.

Lemma missing_logprob_dilutes_witness :
  ppl ([tok (-1)] ++ tok_missing :: [tok (-3)]) <= ppl ([tok (-1)] ++ [tok (-3)])
  /\ (weirdness (ppl ([tok (-1)] ++ tok_missing :: [tok (-3)]))
      <= weirdness (ppl ([tok (-1)] ++ [tok (-3)])))%Z.
Proof.
  apply missing_logprob_dilutes.
  - reflexivity.
  - discriminate.
  - unfold totalLogProb, reduce. cbn. lra.
Defined.

Lemma exp_364_lower : 38 <= exp 3.64.
Proof.
  replace 3.64 with (INR 3 + 0.64) by (cbn; lra).
  rewrite exp_plus, exp_nat.
  assert (Hl := exp_1_lower).
  assert (H3 : 2.71828 ^ 3 <= exp 1 ^ 3) by (apply pow_incr; lra).
  assert (H6 : 1.8964 <= exp 0.64).
  { apply (@exp_ge_by_poly 0.64 1.8964 6); [lra|]. cbn. lra. }
  apply Rle_trans with (2.71828 ^ 3 * 1.8964); [cbn; lra|].
  apply Rmult_le_compat; [cbn; lra | lra | exact H3 | exact H6].
Qed.

(** X22. Up to perplexity 37 the score is at most 99: the score 100 is
    first reached between the perplexities 37 and 38. *)
Theorem weirdness_below_cap (p : R) :
  0 < p -> p <= 37 -> (weirdness p <= 99)%Z.
Proof.
  intros Hp H37. rewrite weirdness_raw by assumption.
  assert (Hpos := ln_succ_pos Hp).
  assert (Hln : ln (p + 1) <= 3.64).
  { apply ln_le_by_exp; [lra|]. generalize exp_364_lower. lra. }
  assert (Hraw : Rpower (ln (p + 1)) 1.7 < 199 / 22).
  { apply Rpower_17_lt; [assumption | lra |].
    apply Rle_lt_trans with (3.64 ^ 17); [apply pow_incr; lra | cbn; lra]. }
  assert (H : (Math_round (Spec.raw p) < 100)%Z).
  { unfold Math_round. apply lt_IZR.
    generalize (Zfloor_bound (Spec.raw p + / 2)). unfold Spec.raw. lra. }
  lia.
Qed.

Lemma weirdness_below_cap_witness : (weirdness 37 <= 99)%Z.
Proof. apply weirdness_below_cap; lra. Defined.
